(** * btclibwallet: mnemonic codec, seed vault and transactional batch

    A shallow embedding of the seed word-list codec
    ([ByteToMnemonic], [EncodeMnemonic], [DecodeMnemonics],
    [DecodeUserInput], [checksumByte]) and of [multiwallet_utils.go]
    ([batchDbTransaction], [naclLoadFromPass], [encryptWalletSeed],
    [decryptWalletSeed]).

    Conventions.
    - A Go [string] is a [string]; a [[]byte] is a [list byte], the nil
      slice being [[]].
    - Go integers ([int], [uint16]) are [Z]; the wrap-around of a fixed
      width is written out ([uint16]).
    - A Go function returning [(T, error)] returns a pair
      [T * option error], [None] being the nil error.
    - A call either returns or panics: [outcome]. *)

From Stdlib Require Import ZArith NArith Lia Bool.
From Stdlib.Strings Require Import Ascii String Byte.
From stdpp Require Import base option list gmap strings.

Local Open Scope string_scope.
Local Open Scope Z_scope.

(* String append computes under [simpl] in this file. *)
#[local] Arguments String.append !s1 s2 : simpl nomatch.

(** ** Go run-time values *)

(** Conversions between Go's [byte] and the integers. [byte_of_Z] is the
    truncating conversion [byte(x)]. *)
Definition Z_of_byte (b : byte) : Z := Z.of_N (Byte.to_N b).

Definition byte_of_Z (z : Z) : byte :=
  match Byte.of_N (Z.to_N (z mod 256)) with
  | Some b => b
  | None => x00
  end.

(** [uint16(x)]: conversion to a 16-bit unsigned integer. *)
Definition uint16 (z : Z) : Z := z mod 65536.

(** [[]byte(s)] and [string(bs)]. *)
Definition bytes_of_string (s : string) : list byte := list_byte_of_string s.
Definition string_of_bytes (bs : list byte) : string := string_of_list_byte bs.

(** [len] of a slice and of a string, as a Go [int]. *)
Definition len {A} (l : list A) : Z := Z.of_nat (length l).
Definition len_string (s : string) : Z := Z.of_nat (String.length s).

(** Kinds of [github.com/decred/dcrwallet/errors/v2] that the code names. *)
Inductive Kind : Type :=
  | Other
  | Encoding.

(** An argument of a formatted message. *)
Inductive fmt_arg : Type :=
  | ArgString (s : string)
  | ArgInt (z : Z).

(** Go [error] values, by where they are made.

    - [errors_New], [errors_Errorf] and [errors_E]: the constructors of
      dcrwallet's [errors] package ([errors.E] with a string argument
      wraps [errors.New] of it).
    - [hex_InvalidByteError], [hex_ErrLength]: errors of [encoding/hex].
    - [hdkeychain_ErrInvalidSeedLen]: the exported error of btcutil's
      [hdkeychain].
    - [foreign_error]: an error value made by one of the other imported
      packages (scrypt, nacl, secretbox, storm), named by package and
      message. *)
Inductive error : Type :=
  | errors_New (text : string)
  | errors_Errorf (format : string) (args : list fmt_arg)
  | errors_E (op : string) (kind : Kind) (err : error)
  | hex_InvalidByteError (b : byte)
  | hex_ErrLength
  | hdkeychain_ErrInvalidSeedLen
  | foreign_error (pkg : string) (msg : string).

(** The value carried by a panic. *)
Inductive panic_value : Type :=
  | runtime_error (msg : string)
  | panic_arg (v : string).

(** How a call ends: it returns a value, or it panics and unwinds. *)
Inductive outcome (A : Type) : Type :=
  | Returns (a : A)
  | Panics (v : panic_value).
Arguments Returns {A} a.
Arguments Panics {A} v.

#[global] Instance outcome_ret : MRet outcome := fun A a => Returns a.

#[global] Instance outcome_bind : MBind outcome := fun A B k m =>
  match m with
  | Returns a => k a
  | Panics v => Panics v
  end.

(** Indexing a slice: [l[i]] panics when [i] is out of range. *)
Definition index {A} (l : list A) (i : Z) : outcome A :=
  if (i <? 0) || (len l <=? i) then Panics (runtime_error "index out of range")
  else match l !! Z.to_nat i with
       | Some a => Returns a
       | None => Panics (runtime_error "index out of range")
       end.

(** [l[i] = v]: panics when [i] is out of range. *)
Definition index_set {A} (l : list A) (i : Z) (v : A) : outcome (list A) :=
  if (i <? 0) || (len l <=? i) then Panics (runtime_error "index out of range")
  else Returns (<[Z.to_nat i := v]> l).

(** [l[:hi]]: panics when [hi] is out of range. *)
Definition slice_to {A} (l : list A) (hi : Z) : outcome (list A) :=
  if (hi <? 0) || (len l <? hi) then Panics (runtime_error "slice bounds out of range")
  else Returns (take (Z.to_nat hi) l).

(** ** Package [strings]

    The three functions the code calls, on strings of ASCII bytes. (On
    bytes above 0x7F the Go functions also know the Unicode white space
    and letter cases; that part is outside this model.) *)
Module strings.

(** The white space of [strings.TrimSpace] below 0x80:
    ['\t'], ['\n'], ['\v'], ['\f'], ['\r'], [' ']. *)
Definition isSpace (c : ascii) : bool :=
  let n := N_of_ascii c in
  ((9 <=? n) && (n <=? 13) || (n =? 32))%N.

Fixpoint TrimLeft (s : string) : string :=
  match s with
  | EmptyString => EmptyString
  | String c s' => if isSpace c then TrimLeft s' else s
  end.

Fixpoint TrimRight (s : string) : string :=
  match s with
  | EmptyString => EmptyString
  | String c s' =>
      match TrimRight s' with
      | EmptyString => if isSpace c then EmptyString else String c EmptyString
      | t => String c t
      end
  end.

(** [strings.TrimSpace]: all leading and trailing white space removed. *)
Definition TrimSpace (s : string) : string := TrimRight (TrimLeft s).

Definition toLower (c : ascii) : ascii :=
  let n := N_of_ascii c in
  if ((65 <=? n) && (n <=? 90))%N then ascii_of_N (n + 32) else c.

(** [strings.ToLower]. *)
Fixpoint ToLower (s : string) : string :=
  match s with
  | EmptyString => EmptyString
  | String c s' => String (toLower c) (ToLower s')
  end.

(** [strings.Split(s, sep)] for a separator of one byte, which is how
    the code calls it ([" "] and ["\n"]): the substrings between the
    separators, [[""]] for the empty string. *)
Fixpoint Split (s : string) (sep : ascii) : list string :=
  match s with
  | EmptyString => [EmptyString]
  | String c s' =>
      if Ascii.eqb c sep then EmptyString :: Split s' sep
      else match Split s' sep with
           | w :: ws => String c w :: ws
           | [] => [String c EmptyString]
           end
  end.

End strings.

(** ** Package [encoding/hex] *)
Module hex.

(** [fromHexChar]: the value of a hexadecimal digit. *)
Definition fromHexChar (c : ascii) : option Z :=
  let n := Z.of_N (N_of_ascii c) in
  if (48 <=? n) && (n <=? 57) then Some (n - 48)
  else if (97 <=? n) && (n <=? 102) then Some (n - 97 + 10)
  else if (65 <=? n) && (n <=? 70) then Some (n - 65 + 10)
  else None.

Definition byte_of_ascii' (c : ascii) : byte := byte_of_ascii c.

(** [hex.Decode] over the characters of the source: the bytes decoded
    so far are returned with the error. *)
Fixpoint Decode (src : string) : list byte * option error :=
  match src with
  | EmptyString => ([], None)
  | String c EmptyString =>
      match fromHexChar c with
      | None => ([], Some (hex_InvalidByteError (byte_of_ascii' c)))
      | Some _ => ([], Some hex_ErrLength)
      end
  | String c1 (String c2 rest) =>
      match fromHexChar c1 with
      | None => ([], Some (hex_InvalidByteError (byte_of_ascii' c1)))
      | Some a =>
          match fromHexChar c2 with
          | None => ([], Some (hex_InvalidByteError (byte_of_ascii' c2)))
          | Some b =>
              let '(bs, err) := Decode rest in
              (byte_of_Z (Z.lor (Z.shiftl a 4) b) :: bs, err)
          end
      end
  end.

(** [hex.DecodeString]. *)
Definition DecodeString (s : string) : list byte * option error := Decode s.

End hex.

(** ** Package [hdkeychain] of btcutil: the bounds on a seed's length

    The package declares [MinSeedBytes = 16] (128 bits) and
    [MaxSeedBytes = 64] (512 bits). *)
Module hdkeychain.
Definition MinSeedBytes : Z := 16.
Definition MaxSeedBytes : Z := 64.
Definition ErrInvalidSeedLen : error := hdkeychain_ErrInvalidSeedLen.
End hdkeychain.

(** ** Package [crypto/sha256]

    SHA-256 of FIPS 180-4 on 32-bit words held in [Z]. *)
Module sha256.

Definition w32 (x : Z) : Z := x mod 4294967296.

Definition rotr (x n : Z) : Z :=
  Z.lor (Z.shiftr x n) (w32 (Z.shiftl x (32 - n))).

Definition Ch (x y z : Z) : Z :=
  Z.lxor (Z.land x y) (Z.land (w32 (Z.lnot x)) z).

Definition Maj (x y z : Z) : Z :=
  Z.lxor (Z.lxor (Z.land x y) (Z.land x z)) (Z.land y z).

Definition Sigma0 (x : Z) : Z := Z.lxor (Z.lxor (rotr x 2) (rotr x 13)) (rotr x 22).
Definition Sigma1 (x : Z) : Z := Z.lxor (Z.lxor (rotr x 6) (rotr x 11)) (rotr x 25).
Definition sigma0 (x : Z) : Z := Z.lxor (Z.lxor (rotr x 7) (rotr x 18)) (Z.shiftr x 3).
Definition sigma1 (x : Z) : Z := Z.lxor (Z.lxor (rotr x 17) (rotr x 19)) (Z.shiftr x 10).

(** The first 64 primes. *)
Definition primes : list Z :=
  [ 2; 3; 5; 7; 11; 13; 17; 19; 23; 29; 31; 37; 41; 43; 47; 53;
    59; 61; 67; 71; 73; 79; 83; 89; 97; 101; 103; 107; 109; 113; 127; 131;
    137; 139; 149; 151; 157; 163; 167; 173; 179; 181; 191; 193; 197; 199; 211; 223;
    227; 229; 233; 239; 241; 251; 257; 263; 269; 271; 277; 281; 283; 293; 307; 311 ].

(** The integer part of the cube root of [n], for [n] below 2^111: the
    bits of the root are tried from the highest down. *)
Definition cube_root (n : Z) : Z :=
  fold_left (fun r k => let r' := r + 2 ^ Z.of_nat k in
                        if r' * r' * r' <=? n then r' else r)
            (rev (seq 0 37)) 0.

(** The round constants: the first 32 bits of the fractional parts of the
    cube roots of the first 64 primes. *)
Definition K : list Z := map (fun p => w32 (cube_root (p * 2 ^ 96))) primes.

(** The eight working variables, also the hash value between blocks. *)
Record digest : Type := Digest { ha : Z; hb : Z; hc : Z; hd : Z; he : Z; hf : Z; hg : Z; hh : Z }.

(** The initial hash value: the first 32 bits of the fractional parts of
    the square roots of the first 8 primes. *)
Definition init : digest :=
  match map (fun p => w32 (Z.sqrt (p * 2 ^ 64))) (take 8 primes) with
  | [a; b; c; d; e; f; g; h] => Digest a b c d e f g h
  | _ => Digest 0 0 0 0 0 0 0 0
  end.

(** Padding: the byte 0x80, zeros up to 56 modulo 64, and the length in
    bits as 8 big-endian bytes. *)
Definition be_bytes (n : nat) (x : Z) : list Z :=
  map (fun i => Z.shiftr x (8 * Z.of_nat i) mod 256) (rev (seq 0 n)).

Definition pad (msg : list Z) : list Z :=
  let l := len msg in
  let zeros := Z.to_nat ((55 - l) mod 64) in
  msg ++ [128] ++ replicate zeros 0 ++ be_bytes 8 ((8 * l) mod 2 ^ 64).

Fixpoint be_words (n : nat) (bs : list Z) : list Z :=
  match n, bs with
  | S n', b0 :: b1 :: b2 :: b3 :: rest =>
      (Z.shiftl b0 24 + Z.shiftl b1 16 + Z.shiftl b2 8 + b3) :: be_words n' rest
  | _, _ => []
  end.

(** The message schedule: [w] holds W[0..t-1]; [n] more words are added. *)
Fixpoint schedule (n : nat) (w : list Z) : list Z :=
  match n with
  | O => w
  | S n' =>
      let t := length w in
      let at_ k := nth (t - k) w 0 in
      schedule n' (w ++ [w32 (sigma1 (at_ 2%nat) + at_ 7%nat + sigma0 (at_ 15%nat) + at_ 16%nat)])
  end.

Definition round (s : digest) (kw : Z * Z) : digest :=
  let '(k, w) := kw in
  let t1 := w32 (hh s + Sigma1 (he s) + Ch (he s) (hf s) (hg s) + k + w) in
  let t2 := w32 (Sigma0 (ha s) + Maj (ha s) (hb s) (hc s)) in
  Digest (w32 (t1 + t2)) (ha s) (hb s) (hc s) (w32 (hd s + t1)) (he s) (hf s) (hg s).

Definition block (h : digest) (bs : list Z) : digest :=
  let w := schedule 48 (be_words 16 bs) in
  let s := fold_left round (zip K w) h in
  Digest (w32 (ha h + ha s)) (w32 (hb h + hb s)) (w32 (hc h + hc s)) (w32 (hd h + hd s))
         (w32 (he h + he s)) (w32 (hf h + hf s)) (w32 (hg h + hg s)) (w32 (hh h + hh s)).

Fixpoint blocks (n : nat) (h : digest) (bs : list Z) : digest :=
  match n with
  | O => h
  | S n' => blocks n' (block h (take 64 bs)) (drop 64 bs)
  end.

Definition digest_bytes (h : digest) : list byte :=
  map byte_of_Z
    (be_bytes 4 (ha h) ++ be_bytes 4 (hb h) ++ be_bytes 4 (hc h) ++ be_bytes 4 (hd h) ++
     be_bytes 4 (he h) ++ be_bytes 4 (hf h) ++ be_bytes 4 (hg h) ++ be_bytes 4 (hh h)).

(** [sha256.Sum256]: the 32 bytes of the digest. *)
Definition Sum256 (data : list byte) : list byte :=
  let padded := pad (map Z_of_byte data) in
  digest_bytes (blocks (length padded / 64) init padded).

End sha256.

(** ** The PGP word list

    [AlternatingWords]: the words, one per line, even-position and
    odd-position words alternating. *)
Definition AlternatingWords : string := "aardvark
adroitness
absurd
adviser
accrue
aftermath
acme
aggregate
adrift
alkali
adult
almighty
afflict
amulet
ahead
amusement
aimless
antenna
Algol
applicant
allow
Apollo
alone
armistice
ammo
article
ancient
asteroid
apple
Atlantic
artist
atmosphere
assume
autopsy
Athens
Babylon
atlas
backwater
Aztec
barbecue
baboon
belowground
backfield
bifocals
backward
bodyguard
banjo
bookseller
beaming
borderline
bedlamp
bottomless
beehive
Bradbury
beeswax
bravado
befriend
Brazilian
Belfast
breakaway
berserk
Burlington
billiard
businessman
bison
butterfat
blackjack
Camelot
blockade
candidate
blowtorch
cannonball
bluebird
Capricorn
bombast
caravan
bookshelf
caretaker
brackish
celebrate
breadline
cellulose
breakup
certify
brickyard
chambermaid
briefcase
Cherokee
Burbank
Chicago
button
clergyman
buzzard
coherence
cement
combustion
chairlift
commando
chatter
company
checkup
component
chisel
concurrent
choking
confidence
chopper
conformist
Christmas
congregate
clamshell
consensus
classic
consulting
classroom
corporate
cleanup
corrosion
clockwork
councilman
cobra
crossover
commence
crucifix
concert
cumbersome
cowbell
customer
crackdown
Dakota
cranky
decadence
crowfoot
December
crucial
decimal
crumpled
designing
crusade
detector
cubic
detergent
dashboard
determine
deadbolt
dictator
deckhand
dinosaur
dogsled
direction
dragnet
disable
drainage
disbelief
dreadful
disruptive
drifter
distortion
dropper
document
drumbeat
embezzle
drunken
enchanting
Dupont
enrollment
dwelling
enterprise
eating
equation
edict
equipment
egghead
escapade
eightball
Eskimo
endorse
everyday
endow
examine
enlist
existence
erase
exodus
escape
fascinate
exceed
filament
eyeglass
finicky
eyetooth
forever
facial
fortitude
fallout
frequency
flagpole
gadgetry
flatfoot
Galveston
flytrap
getaway
fracture
glossary
framework
gossamer
freedom
graduate
frighten
gravity
gazelle
guitarist
Geiger
hamburger
glitter
Hamilton
glucose
handiwork
goggles
hazardous
goldfish
headwaters
gremlin
hemisphere
guidance
hesitate
hamlet
hideaway
highchair
holiness
hockey
hurricane
indoors
hydraulic
indulge
impartial
inverse
impetus
involve
inception
island
indigo
jawbone
inertia
keyboard
infancy
kickoff
inferno
kiwi
informant
klaxon
insincere
locale
insurgent
lockup
integrate
merit
intention
minnow
inventive
miser
Istanbul
Mohawk
Jamaica
mural
Jupiter
music
leprosy
necklace
letterhead
Neptune
liberty
newborn
maritime
nightbird
matchmaker
Oakland
maverick
obtuse
Medusa
offload
megaton
optic
microscope
orca
microwave
payday
midsummer
peachy
millionaire
pheasant
miracle
physique
misnomer
playhouse
molasses
Pluto
molecule
preclude
Montana
prefer
monument
preshrunk
mosquito
printer
narrative
prowler
nebula
pupil
newsletter
puppy
Norwegian
python
October
quadrant
Ohio
quiver
onlooker
quota
opulent
ragtime
Orlando
ratchet
outfielder
rebirth
Pacific
reform
pandemic
regain
Pandora
reindeer
paperweight
rematch
paragon
repay
paragraph
retouch
paramount
revenge
passenger
reward
pedigree
rhythm
Pegasus
ribcage
penetrate
ringbolt
perceptive
robust
performance
rocker
pharmacy
ruffled
phonetic
sailboat
photograph
sawdust
pioneer
scallion
pocketful
scenic
politeness
scorecard
positive
Scotland
potato
seabird
processor
select
provincial
sentence
proximate
shadow
puberty
shamrock
publisher
showgirl
pyramid
skullcap
quantity
skydive
racketeer
slingshot
rebellion
slowdown
recipe
snapline
recover
snapshot
repellent
snowcap
replica
snowslide
reproduce
solo
resistor
southward
responsive
soybean
retraction
spaniel
retrieval
spearhead
retrospect
spellbind
revenue
spheroid
revival
spigot
revolver
spindle
sandalwood
spyglass
sardonic
stagehand
Saturday
stagnate
savagery
stairway
scavenger
standard
sensation
stapler
sociable
steamship
souvenir
sterling
specialist
stockman
speculate
stopwatch
stethoscope
stormy
stupendous
sugar
supportive
surmount
surrender
suspense
suspicious
sweatband
sympathy
swelter
tambourine
tactics
telephone
talon
therapist
tapeworm
tobacco
tempest
tolerance
tiger
tomorrow
tissue
torpedo
tonic
tradition
topmost
travesty
tracker
trombonist
transit
truncated
trauma
typewriter
treadmill
ultimate
Trojan
undaunted
trouble
underfoot
tumor
unicorn
tunnel
unify
tycoon
universe
uncut
unravel
unearth
upcoming
unwind
vacancy
uproot
vagabond
upset
vertigo
upshot
Virginia
vapor
visitor
village
vocalist
virus
voyager
Vulcan
warranty
waffle
Waterloo
wallet
whimsical
watchword
Wichita
wayside
Wilmington
willow
Wyoming
woodlark
yesteryear
Zulu
Yucatan".

(** [var wordList = strings.Split(AlternatingWords, "\n")] *)
Definition wordList : list string := strings.Split AlternatingWords "010"%char.

(** [func init()]: every word, trimmed and in lower case, is mapped to its
    index as a [uint16]; a later word overwrites an equal earlier one. *)
Fixpoint init_loop (i : Z) (words : list string) (m : gmap string Z) : gmap string Z :=
  match words with
  | [] => m
  | word :: rest =>
      init_loop (i + 1) rest (<[strings.ToLower (strings.TrimSpace word) := uint16 i]> m)
  end.

Definition wordIndexes : gmap string Z := init_loop 0 wordList ∅.

Definition PGPWordList : list string := wordList.

(** [ByteToMnemonic] returns the PGP word list encoding of [b] when found
    at [index]. The remainder [%] of Go is [Z.rem]. *)
Definition ByteToMnemonic (b : byte) (index_ : Z) : outcome string :=
  let bb := uint16 (uint16 (Z_of_byte b) * 2) in
  let bb := if negb (Z.rem index_ 2 =? 0) then uint16 (bb + 1) else bb in
  index wordList bb.

(** [checksumByte]: the first byte of the double SHA-256 of [data]. A
    digest is an array of 32 bytes, so its element 0 exists. *)
Definition checksumByte (data : list byte) : byte :=
  let intermediateHash := sha256.Sum256 data in
  match sha256.Sum256 intermediateHash with
  | b :: _ => b
  | [] => x00
  end.

(** The loop of [EncodeMnemonic] from position [i] on; [buf] is the
    [bytes.Buffer]. *)
Fixpoint EncodeMnemonic_loop (i : Z) (seed : list byte) (buf : string) : outcome string :=
  match seed with
  | [] => mret buf
  | b :: rest =>
      let buf := if negb (i =? 0) then buf ++ " " else buf in
      w ← ByteToMnemonic b i;
      EncodeMnemonic_loop (i + 1) rest (buf ++ w)
  end.

(** [EncodeMnemonic] encodes a seed as a mnemonic word list separated by
    spaces. *)
Definition EncodeMnemonic (seed : list byte) : outcome string :=
  buf ← EncodeMnemonic_loop 0 seed "";
  let checksum := checksumByte seed in
  let buf := buf ++ " " in
  w ← ByteToMnemonic checksum (len seed);
  mret (buf ++ w).

(** The loop of [DecodeMnemonics]: [inl (idx, decoded)] when it runs to
    its end, [inr err] when it returns early with an error. *)
Fixpoint DecodeMnemonics_loop (words : list string) (idx : Z) (decoded : list byte)
  : outcome (Z * list byte + error) :=
  let op := "pgpwordlist.DecodeMnemonics" in
  match words with
  | [] => mret (inl (idx, decoded))
  | w :: rest =>
      let w := strings.TrimSpace w in
      if String.eqb w "" then DecodeMnemonics_loop rest idx decoded
      else
        match wordIndexes !! strings.ToLower w with
        | None =>
            let err := errors_Errorf "word '%v' is not in the PGP word list" [ArgString w] in
            mret (inr (errors_E op Encoding err))
        | Some b =>
            if negb (Z.rem b 2 =? Z.rem idx 2) then
              let err := errors_Errorf
                           "word '%v' is not valid at position %v, check for missing words"
                           [ArgString w; ArgInt idx] in
              mret (inr (errors_E op Encoding err))
            else
              decoded ← index_set decoded idx (byte_of_Z (Z.quot b 2));
              DecodeMnemonics_loop rest (idx + 1) decoded
        end
  end.

(** [DecodeMnemonics] returns the decoded value that is encoded by
    [words]. Words that are white space or empty are skipped. *)
Definition DecodeMnemonics (words : list string) : outcome (list byte * option error) :=
  let decoded := replicate (length words) x00 in
  r ← DecodeMnemonics_loop words 0 decoded;
  match r with
  | inr err => mret ([], Some err)
  | inl (idx, decoded) => d ← slice_to decoded idx; mret (d, None)
  end.

(** The [switch] of [DecodeUserInput] on the tokens: [inl seed] when
    control reaches the end of the switch, [inr err] for an early
    return. *)
Definition DecodeUserInput_switch (words : list string) : outcome (list byte + error) :=
  let op := "walletseed.DecodeUserInput" in
  if len words =? 1 then
    w0 ← index words 0;
    let '(seed, err) := hex.DecodeString w0 in
    match err with
    | Some e => mret (inr (errors_E op Encoding e))
    | None => mret (inl seed)
    end
  else if len words >? 1 then
    r ← DecodeMnemonics words;
    let '(decoded, err) := r in
    match err with
    | Some e => mret (inr (errors_E op Encoding e))
    | None =>
        if len decoded <? 2 then mret (inl [])
        else
          data ← slice_to decoded (len decoded - 1);
          last ← index decoded (len decoded - 1);
          if negb (Byte.eqb (checksumByte data) last) then
            mret (inr (errors_E op Encoding (errors_New "checksum mismatch")))
          else mret (inl data)
    end
  else mret (inl []).

(** The body of [DecodeUserInput] once the input is split in [words]:
    the switch, then the bounds on the length of the seed. *)
Definition DecodeUserInput_words (words : list string) : outcome (list byte * option error) :=
  let op := "walletseed.DecodeUserInput" in
  r ← DecodeUserInput_switch words;
  match r with
  | inr err => mret ([], Some err)
  | inl seed =>
      if (len seed <? hdkeychain.MinSeedBytes) || (len seed >? hdkeychain.MaxSeedBytes) then
        mret ([], Some (errors_E op Encoding hdkeychain.ErrInvalidSeedLen))
      else mret (seed, None)
  end.

(** [DecodeUserInput] decodes a seed in either hexadecimal or mnemonic
    word list encoding back into its binary form. *)
Definition DecodeUserInput (input : string) : outcome (list byte * option error) :=
  let words := strings.Split (strings.TrimSpace input) " "%char in
  DecodeUserInput_words words.

(** ** [multiwallet_utils.go]: the transactional batch *)

(** The calls the wrapper makes, in the order it makes them. *)
Inductive db_call : Type :=
  | CallBegin (writable : bool)
  | CallOp
  | CallCommit
  | CallRollback.

Section TransactionalBatch.

(** The storm database is not part of the code: [Store] is its state
    and [Node] the handle of an open transaction. *)
Context {Store Node : Type}.

(** The transaction contract of storm: [db.Begin(writable)],
    [node.Commit()] and [node.Rollback()]. *)
Record storm : Type := Storm {
  Begin : bool -> Store -> (Node * option error) * Store;
  Commit : Node -> Store -> option error * Store;
  Rollback : Node -> Store -> option error * Store
}.

(** The state a batch runs in: the store, and the calls made so far. *)
Record world : Type := World { store : Store; calls : list db_call }.

Definition call_Begin (db : storm) (writable : bool) (w : world)
  : (Node * option error) * world :=
  let '(r, s) := Begin db writable (store w) in
  (r, World s (calls w ++ [CallBegin writable])).

Definition call_Commit (db : storm) (dbTx : Node) (w : world) : option error * world :=
  let '(r, s) := Commit db dbTx (store w) in
  (r, World s (calls w ++ [CallCommit])).

Definition call_Rollback (db : storm) (dbTx : Node) (w : world) : option error * world :=
  let '(r, s) := Rollback db dbTx (store w) in
  (r, World s (calls w ++ [CallRollback])).

(** The operation of a batch works on the store through the handle;
    it returns an error, or nil, or it panics. *)
Definition operation : Type := Node -> Store -> outcome (option error) * Store.

Definition call_dbOp (dbOp : operation) (dbTx : Node) (w : world)
  : outcome (option error) * world :=
  let '(r, s) := dbOp dbTx (store w) in
  (r, World s (calls w ++ [CallOp])).

(** The deferred function of [batchDbTransaction]. It reads the local
    [panicked] and the named result [err]; the value it leaves in
    [err] is what the caller receives. The result of [Rollback] is
    dropped. *)
Definition batchDbTransaction_deferred (db : storm) (dbTx : Node)
    (panicked : bool) (err : option error) (w : world) : option error * world :=
  if panicked || bool_decide (err <> None) then
    let '(_, w) := call_Rollback db dbTx w in
    (err, w)
  else
    call_Commit db dbTx w.

(** [batchDbTransaction]. When [dbOp] panics the deferred function
    runs with [panicked] still true and [err] still nil, and the panic
    goes on. *)
Definition batchDbTransaction (db : storm) (dbOp : operation) (w : world)
  : outcome (option error) * world :=
  let '((dbTx, err), w) := call_Begin db true w in
  match err with
  | Some _ => (Returns err, w)
  | None =>
      let panicked := true in
      let '(r, w) := call_dbOp dbOp dbTx w in
      match r with
      | Panics v =>
          let '(_, w) := batchDbTransaction_deferred db dbTx panicked err w in
          (Panics v, w)
      | Returns err =>
          let panicked := false in
          let '(err, w) := batchDbTransaction_deferred db dbTx panicked err w in
          (Returns err, w)
      end
  end.

End TransactionalBatch.

Arguments storm : clear implicits.
Arguments world : clear implicits.
Arguments operation : clear implicits.

(** ** [multiwallet_utils.go]: the seed vault *)

(** What the vault calls and the code shown does not define: scrypt,
    nacl and secretbox of the imported packages, and two names declared
    elsewhere in this package, the helper [EncodeHex] and the constant
    [ErrInvalidPassphrase]. [secretbox.EasySeal] draws a nonce from
    [crypto/rand]; here the nonce is its first argument. A [nacl.Key] is
    held as its bytes. *)
Record vault_env : Type := VaultEnv {
  scrypt_Key : list byte -> list byte -> Z -> Z -> Z -> Z -> list byte * option error;
  nacl_Load : string -> list byte * option error;
  secretbox_EasySeal : list byte -> list byte -> list byte -> list byte;
  secretbox_EasyOpen : list byte -> list byte -> list byte * option error;
  EncodeHex : list byte -> string;
  ErrInvalidPassphrase : string
}.

Section SeedVault.

Context (env : vault_env).

(** [naclLoadFromPass] derives a [nacl.Key] from [pass] using
    [scrypt.Key]. *)
Definition naclLoadFromPass (pass : list byte) : list byte * option error :=
  let N := Z.shiftl 1 15 in
  let r := 8 in
  let p := 1 in
  let '(hash, err) := scrypt_Key env pass [] N r p 32 in
  match err with
  | Some _ => ([], err)
  | None => nacl_Load env (EncodeHex env hash)
  end.

(** [encryptWalletSeed] encrypts the seed with [secretbox.EasySeal]
    using [pass]. *)
Definition encryptWalletSeed (nonce : list byte) (pass : list byte) (seed : string)
  : list byte * option error :=
  let '(key, err) := naclLoadFromPass pass in
  match err with
  | Some _ => ([], err)
  | None => (secretbox_EasySeal env nonce (bytes_of_string seed) key, None)
  end.

(** [decryptWalletSeed] decrypts [encryptedSeed] with
    [secretbox.EasyOpen] using [pass]. *)
Definition decryptWalletSeed (pass : list byte) (encryptedSeed : list byte)
  : string * option error :=
  let '(key, err) := naclLoadFromPass pass in
  match err with
  | Some _ => ("", err)
  | None =>
      let '(decryptedSeed, err) := secretbox_EasyOpen env encryptedSeed key in
      match err with
      | Some _ => ("", Some (errors_New (ErrInvalidPassphrase env)))
      | None => (string_of_bytes decryptedSeed, None)
      end
  end.

End SeedVault.

(** ** [multiwallet_utils.go]: a wallet loaded for temporary use *)

(** The calls [loadWalletTemporarily] makes on the wallet loader, and
    the call of [onLoaded]. *)
Inductive loader_call : Type :=
  | CallOpenExistingWallet (walletDataDir : string) (pubPassphrase : list byte)
      (canConsolePrompt : bool)
  | CallOnLoaded
  | CallUnloadWallet (walletDataDir : string).

Section LoadWalletTemporarily.

(** The wallet runtime is not part of the code: [Runtime] is its state
    and [Wallet] an open wallet ([*w.Wallet]). *)
Context {Runtime Wallet : Type}.

(** What the function calls and the code shown does not define: the
    constant [w.InsecurePubPassphrase] of btcwallet, the loader made by
    [initWalletLoader(mw.chainParams, walletDataDir)], named here by its
    directory, with its calls [OpenExistingWallet] and [UnloadWallet],
    and [translateError] of this package. *)
Record loader_env : Type := LoaderEnv {
  InsecurePubPassphrase : string;
  OpenExistingWallet :
    string -> list byte -> bool -> Runtime -> (Wallet * option error) * Runtime;
  UnloadWallet : string -> Runtime -> option error * Runtime;
  translateError : error -> error
}.

(** The state a load runs in: the runtime, and the calls made so far. *)
Record loader_world : Type := LoaderWorld { runtime : Runtime; loader_calls : list loader_call }.

(** The callback works on the runtime through the wallet; it returns an
    error, or nil, or it panics. *)
Definition callback : Type := Wallet -> Runtime -> outcome (option error) * Runtime.

Definition call_OpenExistingWallet (env : loader_env) (walletDataDir : string)
    (pubPassphrase : list byte) (canConsolePrompt : bool) (w : loader_world)
  : (Wallet * option error) * loader_world :=
  let '(r, s) := OpenExistingWallet env walletDataDir pubPassphrase canConsolePrompt
                   (runtime w) in
  (r, LoaderWorld s
        (loader_calls w
         ++ [CallOpenExistingWallet walletDataDir pubPassphrase canConsolePrompt])%list).

Definition call_UnloadWallet (env : loader_env) (walletDataDir : string) (w : loader_world)
  : option error * loader_world :=
  let '(r, s) := UnloadWallet env walletDataDir (runtime w) in
  (r, LoaderWorld s (loader_calls w ++ [CallUnloadWallet walletDataDir])%list).

Definition call_onLoaded (onLoaded : callback) (wallet : Wallet) (w : loader_world)
  : outcome (option error) * loader_world :=
  let '(r, s) := onLoaded wallet (runtime w) in
  (r, LoaderWorld s (loader_calls w ++ [CallOnLoaded])%list).

(** [loadWalletTemporarily]. [onLoaded] is [None] for a nil function.
    The deferred [UnloadWallet] runs when the function returns and when
    [onLoaded] panics; what it returns is dropped. *)
Definition loadWalletTemporarily (env : loader_env) (walletDataDir walletPublicPass : string)
    (onLoaded : option callback) (w : loader_world)
  : outcome (option error) * loader_world :=
  let walletPublicPass :=
    if String.eqb walletPublicPass "" then InsecurePubPassphrase env
    else walletPublicPass in
  let '((wallet, err), w) :=
    call_OpenExistingWallet env walletDataDir (bytes_of_string walletPublicPass) false w in
  match err with
  | Some e => (Returns (Some (translateError env e)), w)
  | None =>
      let '(r, w) :=
        match onLoaded with
        | Some f => call_onLoaded f wallet w
        | None => (Returns None, w)
        end in
      let '(_, w) := call_UnloadWallet env walletDataDir w in
      (r, w)
  end.

End LoadWalletTemporarily.

Arguments loader_env : clear implicits.
Arguments loader_world : clear implicits.
Arguments callback : clear implicits.

(** ** [multiwallet_utils.go]: the size of the root directory *)

(** [os.FileInfo], as far as the code reads it. *)
Record FileInfo : Type := { IsDir : bool; Size : Z }.

(** A file tree as [filepath.Walk] finds it: an entry whose [Lstat]
    fails, a file of a size, or a directory with its own size, the error
    of reading its names if any, and its entries in lexical order. *)
#[warnings="-register-all"]
Inductive fnode : Type :=
  | Unreadable (err : error)
  | File (size : Z)
  | Dir (size : Z) (readdir : option error) (entries : list fnode).

(** [filepath.SkipDir]. *)
Definition filepath_SkipDir : error := foreign_error "filepath" "skip this directory".

Definition is_SkipDir (e : error) : bool :=
  match e with
  | foreign_error pkg msg =>
      String.eqb pkg "filepath" && String.eqb msg "skip this directory"
  | _ => false
  end.

Definition is_file (n : fnode) : bool :=
  match n with
  | File _ => true
  | _ => false
  end.

Section Walk.

(** The function called at each entry, with the state it works on; the
    path of the entry is left out. The info is [None] for nil. *)
Context {S : Type}.

Definition WalkFunc : Type := option FileInfo -> option error -> S -> outcome (option error * S).

(** The loop of [walk] over the entries of a directory, [walk1] being
    [walk] on one entry: it stops at the first error, but [SkipDir] from
    a directory, or from an entry whose [Lstat] failed, only skips that
    entry. *)
Definition walk_entries (walk1 : fnode -> S -> outcome (option error * S))
  : list fnode -> S -> outcome (option error * S) :=
  fix loop (es : list fnode) (s : S) {struct es} : outcome (option error * S) :=
    match es with
    | [] => mret (None, s)
    | e :: es' =>
        r ← walk1 e s;
        let '(err, s) := r in
        match err with
        | Some x =>
            if is_file e || negb (is_SkipDir x) then mret (err, s)
            else loop es' s
        | None => loop es' s
        end
    end.

(** [walk] of [path/filepath] (before Go 1.20) on an entry: the function
    is called on the entry itself, with the error of [Lstat] or of
    reading the names of a directory if there is one; a directory that
    was read and accepted is then walked entry by entry. *)
Fixpoint walk (walkFn : WalkFunc) (n : fnode) (s : S) {struct n} : outcome (option error * S) :=
  match n with
  | Unreadable err => walkFn None (Some err) s
  | File size => walkFn (Some (Build_FileInfo false size)) None s
  | Dir size readdir entries =>
      r ← walkFn (Some (Build_FileInfo true size)) readdir s;
      let '(err1, s) := r in
      match readdir, err1 with
      | None, None => walk_entries (walk walkFn) entries s
      | _, _ => mret (err1, s)
      end
  end.

(** [filepath.Walk]: [SkipDir] at the root is no error. *)
Definition Walk (root : fnode) (walkFn : WalkFunc) (s : S) : outcome (option error * S) :=
  r ← walk walkFn root s;
  let '(err, s) := r in
  match err with
  | Some x => if is_SkipDir x then mret (None, s) else mret (err, s)
  | None => mret (None, s)
  end.

End Walk.

(** Addition of [int64], wrapping around. *)
Definition int64 (z : Z) : Z := (z + 2 ^ 63) mod 2 ^ 64 - 2 ^ 63.

(** The function [RootDirFileSizeInBytes] hands to [filepath.Walk]; the
    state is the variable [size]. Reading a nil info panics. *)
Definition RootDirFileSizeInBytes_walkFn : @WalkFunc Z :=
  fun info err size =>
    match err with
    | Some _ => mret (err, size)
    | None =>
        match info with
        | None => Panics (runtime_error "invalid memory address or nil pointer dereference")
        | Some info =>
            let size := if negb (IsDir info) then int64 (size + Size info) else size in
            mret (err, size)
        end
    end.

(** [RootDirFileSizeInBytes] returns the total directory size of the
    root directory in bytes; [root] is the tree at [mw.rootDir]. *)
Definition RootDirFileSizeInBytes (root : fnode) : outcome (Z * option error) :=
  r ← Walk root RootDirFileSizeInBytes_walkFn 0;
  let '(err, size) := r in
  mret (size, err).

(** Bytes of a hexadecimal literal, for writing test vectors. *)
Definition unhex (s : string) : list byte := fst (hex.DecodeString s).

(** * Vocabulary of the properties *)

(** ** Words and phrases *)

(** The index of the word for byte [b] at position [i]: twice the byte,
    plus the parity of the position. *)
Definition word_index (b : byte) (i : Z) : Z := 2 * Z_of_byte b + i mod 2.

(** No white space in [s]; in particular no separator [" "]. *)
Fixpoint no_space (s : string) : bool :=
  match s with
  | EmptyString => true
  | String c s' => negb (strings.isSpace c) && no_space s'
  end.

(** A word as the list needs them: not empty and free of white space. *)
Definition plain_word (w : string) : bool := negb (String.eqb w "") && no_space w.

(** Every word preceded by one space. *)
Fixpoint sep_words (ws : list string) : string :=
  match ws with
  | [] => ""
  | w :: ws' => String " " (w ++ sep_words ws')
  end.

(** The words joined by single spaces, nothing before the first or after
    the last ([strings.Join(ws, " ")]). *)
Definition join_words (ws : list string) : string :=
  match ws with
  | [] => ""
  | w :: ws' => w ++ sep_words ws'
  end.

(** The word for byte [b] at position [i]. *)
Definition word_at (b : byte) (i : Z) : string :=
  default "" (wordList !! Z.to_nat (word_index b i)).

(** The words for the bytes [bs], the first of them at position [i]. *)
Fixpoint words_from (i : Z) (bs : list byte) : list string :=
  match bs with
  | [] => []
  | b :: rest => word_at b i :: words_from (i + 1) rest
  end.

(** The words of a seed: one for each byte at its position, then one for
    the checksum byte at position [len seed]. *)
Definition mnemonic_words (seed : list byte) : list string :=
  words_from 0 (seed ++ [checksumByte seed])%list.

(** What decoding needs of the entry [w] at index [i]: it is a plain
    word, and its lower-case form is mapped back to [i]. *)
Definition entry_ok (i : Z) (w : string) : bool :=
  plain_word w && bool_decide (wordIndexes !! strings.ToLower w = Some i).

Fixpoint entries_ok (i : Z) (ws : list string) : bool :=
  match ws with
  | [] => true
  | w :: ws' => entry_ok i w && entries_ok (i + 1) ws'
  end.

(** The two errors of [DecodeMnemonics]. *)
Definition unknown_word_error (w : string) : error :=
  errors_E "pgpwordlist.DecodeMnemonics" Encoding
    (errors_Errorf "word '%v' is not in the PGP word list" [ArgString w]).

Definition parity_error (w : string) (idx : Z) : error :=
  errors_E "pgpwordlist.DecodeMnemonics" Encoding
    (errors_Errorf "word '%v' is not valid at position %v, check for missing words"
       [ArgString w; ArgInt idx]).

(** The bounds on the length of a seed, as [DecodeUserInput] tests them. *)
Definition seed_len_ok (seed : list byte) : bool :=
  negb ((len seed <? hdkeychain.MinSeedBytes) || (len seed >? hdkeychain.MaxSeedBytes)).

Definition seed_len_error : error :=
  errors_E "walletseed.DecodeUserInput" Encoding hdkeychain.ErrInvalidSeedLen.

(** A seed of 16 bytes, the shortest that is accepted. *)
Definition example_seed : list byte := unhex "000102030405060708090a0b0c0d0e0f".

(** ** Mutations of a phrase by one word *)

(** The word at position [i] removed. *)
Definition remove_word (i : nat) (ws : list string) : list string := delete i ws.

(** The word at position [i] written twice. *)
Definition duplicate_word (i : nat) (ws : list string) : list string :=
  match ws !! i with
  | Some w => (take i ws ++ w :: drop i ws)%list
  | None => ws
  end.

Inductive single_word_mutation (ws : list string) : list string -> Prop :=
  | word_removed (i : nat) :
      (i < length ws)%nat -> single_word_mutation ws (remove_word i ws)
  | word_duplicated (i : nat) :
      (i < length ws)%nat -> single_word_mutation ws (duplicate_word i ws).

(** ** A store in memory

    A backend with the transaction contract of storm, for running
    batches. *)

(** The store: the committed records, and the records of the open
    transaction. *)
Record mem_store : Type := MemStore {
  committed : list string;
  pending : option (list string)
}.

(** The database; each of its three calls can be told to fail. *)
Definition mem_db (begin_err commit_err rollback_err : option error)
  : storm mem_store unit :=
  Storm
    (fun _ s =>
       match begin_err with
       | Some _ => ((tt, begin_err), s)
       | None => ((tt, None), MemStore (committed s) (Some (committed s)))
       end)
    (fun _ s =>
       match commit_err with
       | Some _ => (commit_err, MemStore (committed s) None)
       | None => (None, MemStore (default (committed s) (pending s)) None)
       end)
    (fun _ s => (rollback_err, MemStore (committed s) None)).

(** An operation that writes one record and then ends as [r]. *)
Definition mem_write (record : string) (r : outcome (option error))
  : operation mem_store unit :=
  fun _ s => (r, MemStore (committed s) (cons record <$> pending s)).

Definition mem_empty : mem_store := MemStore [] None.

(** What C9 asks of a batch that is rolled back: when [Rollback] itself
    fails, its error is what the caller receives. *)
Definition rollback_failure_returned {Store Node : Type}
    (db : storm Store Node) (dbOp : operation Store Node) (s0 : Store) : Prop :=
  forall dbTx s1 r s2 e s3,
    Begin db true s0 = ((dbTx, None), s1) ->
    dbOp dbTx s1 = (r, s2) ->
    r <> Returns None ->
    Rollback db dbTx s2 = (Some e, s3) ->
    (batchDbTransaction db dbOp (World s0 [])).1 = Returns (Some e).

Definition rollback_failed : error := foreign_error "storm" "rollback failed".
Definition commit_failed : error := foreign_error "storm" "commit failed".
Definition begin_failed : error := foreign_error "storm" "begin failed".
Definition operation_failed : error := errors_New "operation failed".

(** ** Stand-ins for the cryptographic packages *)

(** Stand-ins for the libraries, for running the vault: the key is the
    SHA-256 of the passphrase in place of scrypt, and the box is the
    message behind one byte of checksum under the key in place of the
    authenticated cipher. *)
Definition hex_digit (n : Z) : ascii :=
  ascii_of_N (Z.to_N (if n <? 10 then 48 + n else 87 + n)).

Fixpoint hex_EncodeToString (bs : list byte) : string :=
  match bs with
  | [] => ""
  | b :: rest =>
      String (hex_digit (Z_of_byte b / 16))
        (String (hex_digit (Z_of_byte b mod 16)) (hex_EncodeToString rest))
  end.

Definition mock_scrypt_Key (password salt : list byte) (N r p keyLen : Z)
  : list byte * option error :=
  (sha256.Sum256 (password ++ salt)%list, None).

Definition mock_nacl_Load (hexkey : string) : list byte * option error :=
  ((hex.DecodeString hexkey).1, None).

Definition mock_EasySeal (nonce message key : list byte) : list byte :=
  checksumByte (key ++ message)%list :: message.

Definition mock_EasyOpen (box key : list byte) : list byte * option error :=
  match box with
  | [] => ([], Some (foreign_error "secretbox" "message too short"))
  | t :: message =>
      if Byte.eqb t (checksumByte (key ++ message)%list) then (message, None)
      else ([], Some (foreign_error "secretbox" "Could not decrypt invalid input"))
  end.

Definition mock_env : vault_env :=
  VaultEnv mock_scrypt_Key mock_nacl_Load mock_EasySeal mock_EasyOpen
           hex_EncodeToString "invalid_passphrase".

(** The same, with a scrypt that fails. *)
Definition scrypt_failed : error := foreign_error "scrypt" "parameters are too large".

Definition mock_env_scrypt_fails : vault_env :=
  VaultEnv (fun _ _ _ _ _ _ => ([], Some scrypt_failed))
           mock_nacl_Load mock_EasySeal mock_EasyOpen
           hex_EncodeToString "invalid_passphrase".

Definition example_pass : list byte := bytes_of_string "correct horse".

(** ** Blank tokens *)

(** Only white space in [s]. *)
Fixpoint blank (s : string) : bool :=
  match s with
  | EmptyString => true
  | String c s' => strings.isSpace c && blank s'
  end.

(** The tokens the loop of [DecodeMnemonics] does not skip. *)
Fixpoint count_words (ws : list string) : nat :=
  match ws with
  | [] => 0
  | w :: ws' => (if blank w then 0 else 1) + count_words ws'
  end.

(** ** Strings of ASCII *)

(** Every byte of [s] is below 0x80. On such strings [strings.TrimSpace]
    and [strings.ToLower] above are those of Go, which on other strings
    also know the white space and the letter cases of Unicode. *)
Fixpoint is_ascii (s : string) : bool :=
  match s with
  | EmptyString => true
  | String c s' => (N_of_ascii c <? 128)%N && is_ascii s'
  end.

(** ** For the further properties *)

(** The bytes the loop of [DecodeMnemonics] collects from position [idx]
    on, or its error: the loop, with the list of bytes in place of the
    array [decoded] and its index. *)
Fixpoint decode_tokens (ws : list string) (idx : Z) : list byte + error :=
  match ws with
  | [] => inl []
  | w :: rest =>
      let w := strings.TrimSpace w in
      if String.eqb w "" then decode_tokens rest idx
      else
        match wordIndexes !! strings.ToLower w with
        | None => inr (unknown_word_error w)
        | Some b =>
            if negb (Z.rem b 2 =? Z.rem idx 2) then inr (parity_error w idx)
            else match decode_tokens rest (idx + 1) with
                 | inl bs => inl (byte_of_Z (Z.quot b 2) :: bs)
                 | inr e => inr e
                 end
        end
  end.

(** The tokens that are not blank, in order. *)
Definition words_only (ws : list string) : list string :=
  List.filter (fun w => negb (blank w)) ws.

(** An error of kind [Encoding] made by [DecodeUserInput]. *)
Definition DecodeUserInput_error (e : error) : Prop :=
  exists cause, e = errors_E "walletseed.DecodeUserInput" Encoding cause.

(** A token as the index sees it: trimmed, in lower case. *)
Definition normalize (w : string) : string := strings.ToLower (strings.TrimSpace w).

(** The phrase of [example_seed], in another letter case and with more
    white space. *)
Definition example_phrase_loose : string :=
  "  AARDVARK adviser  accrue Aggregate adrift   almighty afflict amusement aimless applicant allow armistice ammo asteroid apple ATMOSPHERE   WaySide  ".

(** The words at positions [k] and [k+1] exchanged. *)
Definition swap_words (k : nat) (ws : list string) : list string :=
  match ws !! k, ws !! S k with
  | Some w, Some w' => (take k ws ++ w' :: w :: drop (S (S k)) ws)%list
  | _, _ => ws
  end.

(** The passphrase the loader is opened with. *)
Definition open_passphrase {Runtime Wallet : Type} (env : loader_env Runtime Wallet)
    (walletPublicPass : string) : list byte :=
  bytes_of_string (if String.eqb walletPublicPass "" then InsecurePubPassphrase env
                   else walletPublicPass).

(** A wallet runtime for running loads: it opens the wallet for the
    passphrase ["public"] only, and its unloading reports an error. *)
Definition mock_loader : loader_env unit unit :=
  LoaderEnv "public"
    (fun _ pass _ s =>
       if String.eqb (string_of_bytes pass) "public" then ((tt, None), s)
       else ((tt, Some (foreign_error "waddrmgr" "wrong passphrase")), s))
    (fun _ s => (Some (foreign_error "wallet" "unload failed"), s))
    (fun e => errors_E "translateError" Other e).

Definition mock_onLoaded : callback unit unit :=
  fun _ s => (Panics (panic_arg "boom"), s).

(** The sizes of the files of a tree, directories not counted. *)
Fixpoint total_size (n : fnode) : Z :=
  match n with
  | Unreadable _ => 0
  | File size => size
  | Dir _ _ entries => fold_right (fun e acc => total_size e + acc) 0 entries
  end.

(** No [Lstat] and no reading of a directory fails in the tree. *)
Fixpoint error_free (n : fnode) : bool :=
  match n with
  | Unreadable _ => false
  | File _ => true
  | Dir _ readdir entries =>
      match readdir with
      | Some _ => false
      | None => forallb error_free entries
      end
  end.

(** None of the errors in the tree is [filepath.SkipDir]. *)
Fixpoint skipdir_free (n : fnode) : bool :=
  match n with
  | Unreadable e => negb (is_SkipDir e)
  | File _ => true
  | Dir _ readdir entries =>
      match readdir with
      | Some e => negb (is_SkipDir e)
      | None => forallb skipdir_free entries
      end
  end.

(** A tree: two files, and a directory with a file and an empty
    directory. *)
Definition example_tree : fnode :=
  Dir 4096 None [File 100; Dir 4096 None [File 20; Dir 4096 None []]; File 3].

(** The error of a walk against the tree walked: none when the tree is
    free of failures, and otherwise an error that is not [SkipDir]. *)
Definition walk_outcome_ok (failure_free : bool) (err : option error) : Prop :=
  match err with
  | None => failure_free = true
  | Some x => is_SkipDir x = false /\ failure_free = false
  end.

(** A tree with an entry that cannot be read, between two files. *)
Definition example_tree_failing : fnode :=
  Dir 4096 None [File 100; Unreadable (foreign_error "os" "permission denied"); File 3].

(** * Properties *)

(* The tables and the hash are run by [vm_compute] only. *)
#[local] Arguments AlternatingWords : simpl never.
#[local] Arguments wordList : simpl never.
#[local] Arguments wordIndexes : simpl never.
#[local] Arguments sha256.Sum256 : simpl never.
#[local] Arguments checksumByte : simpl never.
#[local] Arguments ByteToMnemonic : simpl never.
#[local] Arguments word_at : simpl never.

(** ** SHA-256: test vectors *)

Example sha256_empty :
  sha256.Sum256 [] = unhex "e3b0c44298fc1c149afbf4c8996fb92427ae41e4649b934ca495991b7852b855".
Proof. vm_compute. reflexivity. Qed.

Example sha256_abc :
  sha256.Sum256 (bytes_of_string "abc")
  = unhex "ba7816bf8f01cfea414140de5dae2223b00361a396177a9cb410ff61f20015ad".
Proof. vm_compute. reflexivity. Qed.

Example sha256_two_blocks :
  sha256.Sum256 (replicate 100 "a"%byte)
  = unhex "2816597888e4a0d3a36b82b83316ab32680eb8f00f8cd3b904d681246d285a0e".
Proof. vm_compute. reflexivity. Qed.

(** ** Bytes, integers and slices *)

Lemma Z_of_byte_range (b : byte) : 0 <= Z_of_byte b <= 255.
Proof.
  unfold Z_of_byte. pose proof (Byte.to_N_bounded b) as H.
  split; [apply N2Z.is_nonneg | lia].
Qed.

Lemma byte_of_Z_of_byte (b : byte) : byte_of_Z (Z_of_byte b) = b.
Proof.
  unfold byte_of_Z. pose proof (Z_of_byte_range b) as H.
  rewrite Z.mod_small by lia. unfold Z_of_byte.
  rewrite N2Z.id, Byte.of_to_N. reflexivity.
Qed.

Lemma rem2_zero (i : Z) : (Z.rem i 2 =? 0) = (i mod 2 =? 0).
Proof.
  destruct (Z.eqb_spec (Z.rem i 2) 0) as [H | H];
    destruct (Z.eqb_spec (i mod 2) 0) as [H' | H']; try reflexivity; exfalso.
  - apply H'. apply Z.rem_divide in H; [| lia]. apply Z.mod_divide; [lia | exact H].
  - apply H. apply Z.mod_divide in H'; [| lia]. apply Z.rem_divide; [lia | exact H'].
Qed.

Lemma len_nonneg {A} (l : list A) : 0 <= len l.
Proof. unfold len. lia. Qed.

Lemma index_Returns {A} (l : list A) (i : Z) (a : A) :
  0 <= i -> l !! Z.to_nat i = Some a -> index l i = Returns a.
Proof.
  intros Hi Hl. unfold index.
  pose proof (lookup_lt_Some _ _ _ Hl) as Hlt.
  replace (i <? 0) with false by (symmetry; apply Z.ltb_ge; lia).
  replace (len l <=? i) with false by (symmetry; apply Z.leb_gt; unfold len; lia).
  simpl. rewrite Hl. reflexivity.
Qed.

(** ** The word list *)

Lemma word_index_range (b : byte) (i : Z) : 0 <= word_index b i <= 511.
Proof.
  unfold word_index. pose proof (Z_of_byte_range b).
  pose proof (Z.mod_pos_bound i 2). lia.
Qed.

Lemma ByteToMnemonic_index (b : byte) (i : Z) :
  ByteToMnemonic b i = index wordList (word_index b i).
Proof.
  unfold ByteToMnemonic, word_index, uint16. f_equal.
  pose proof (Z_of_byte_range b) as Hb.
  pose proof (Z.mod_pos_bound i 2 ltac:(lia)) as Hi.
  rewrite rem2_zero.
  rewrite (Z.mod_small (Z_of_byte b)) by lia.
  rewrite (Z.mod_small (Z_of_byte b * 2)) by lia.
  destruct (Z.eqb_spec (i mod 2) 0) as [E | E]; simpl.
  - lia.
  - rewrite Z.mod_small by lia. lia.
Qed.

Lemma wordList_length : length wordList = 512%nat.
Proof. vm_compute. reflexivity. Qed.

Lemma wordList_lookup_byte (b : byte) (i : Z) :
  exists w, wordList !! Z.to_nat (word_index b i) = Some w.
Proof.
  pose proof (word_index_range b i) as Hr.
  apply (lookup_lt_is_Some_2 wordList). rewrite wordList_length. lia.
Qed.

(** C10. The word list split out of [AlternatingWords] has exactly 512
    entries; the index [2*b + (i mod 2)] that [ByteToMnemonic] computes is
    at most 511 for every byte and every position, so the lookup is in
    bounds and [ByteToMnemonic] returns a word, never panics. *)
Theorem C10_ByteToMnemonic_total :
  length wordList = 512%nat /\
  forall (b : byte) (i : Z),
    0 <= word_index b i <= 511 /\
    exists w, wordList !! Z.to_nat (word_index b i) = Some w /\
              ByteToMnemonic b i = Returns w.
Proof.
  split; [exact wordList_length |].
  intros b i. pose proof (word_index_range b i) as Hr. split; [exact Hr |].
  destruct (wordList_lookup_byte b i) as [w Hw].
  exists w. split; [exact Hw |].
  rewrite ByteToMnemonic_index. apply index_Returns; [lia | exact Hw].
Qed.

(** ** Strings: append, white space, splitting *)

Lemma string_app_assoc (a b c : string) : (a ++ b) ++ c = a ++ (b ++ c).
Proof. induction a as [| x a IH]; simpl; [reflexivity | rewrite IH; reflexivity]. Qed.

Lemma string_app_empty_r (s : string) : s ++ "" = s.
Proof. induction s as [| x s IH]; simpl; [reflexivity | rewrite IH; reflexivity]. Qed.

Lemma isSpace_space : strings.isSpace " " = true.
Proof. reflexivity. Qed.

Lemma not_space_neq (c : ascii) : strings.isSpace c = false -> Ascii.eqb c " " = false.
Proof.
  intros H. destruct (Ascii.eqb_spec c " ") as [-> | ]; [| reflexivity].
  rewrite isSpace_space in H. discriminate.
Qed.

Lemma TrimLeft_no_space (w : string) : no_space w = true -> strings.TrimLeft w = w.
Proof.
  destruct w as [| c w]; simpl; [reflexivity |].
  intros H. apply andb_prop in H as [Hc _].
  apply negb_true_iff in Hc. rewrite Hc. reflexivity.
Qed.

Lemma TrimRight_no_space (w : string) : no_space w = true -> strings.TrimRight w = w.
Proof.
  induction w as [| c w IH]; simpl; [reflexivity |].
  intros H. apply andb_prop in H as [Hc Hw].
  apply negb_true_iff in Hc. rewrite (IH Hw), Hc.
  destruct w; reflexivity.
Qed.

Lemma TrimSpace_no_space (w : string) : no_space w = true -> strings.TrimSpace w = w.
Proof.
  intros H. unfold strings.TrimSpace.
  rewrite (TrimLeft_no_space _ H). apply TrimRight_no_space, H.
Qed.

Lemma TrimRight_app (s t : string) :
  strings.TrimRight t <> "" -> strings.TrimRight (s ++ t) = s ++ strings.TrimRight t.
Proof.
  intros Ht. induction s as [| c s IH]; simpl; [reflexivity |].
  rewrite IH. destruct (s ++ strings.TrimRight t) eqn:E; [| reflexivity].
  exfalso. destruct s; simpl in E; [apply Ht, E | discriminate].
Qed.

Lemma Split_no_sep (w : string) : no_space w = true -> strings.Split w " " = [w].
Proof.
  induction w as [| c w IH]; simpl; [reflexivity |].
  intros H. apply andb_prop in H as [Hc Hw]. apply negb_true_iff in Hc.
  rewrite (not_space_neq _ Hc), (IH Hw). reflexivity.
Qed.

Lemma Split_app_sep (w rest : string) :
  no_space w = true ->
  strings.Split (w ++ String " " rest) " " = w :: strings.Split rest " ".
Proof.
  induction w as [| c w IH]; simpl; [reflexivity |].
  intros H. apply andb_prop in H as [Hc Hw]. apply negb_true_iff in Hc.
  rewrite (not_space_neq _ Hc), (IH Hw). reflexivity.
Qed.

(** ** Phrases: words joined by single spaces *)

Lemma sep_words_app (ws1 ws2 : list string) :
  sep_words (ws1 ++ ws2)%list = sep_words ws1 ++ sep_words ws2.
Proof.
  induction ws1 as [| w ws1 IH]; simpl; [reflexivity |].
  rewrite IH, string_app_assoc. reflexivity.
Qed.

Lemma Split_join (w : string) (ws : list string) :
  Forall (fun x => plain_word x = true) (w :: ws) ->
  strings.Split (join_words (w :: ws)) " " = w :: ws.
Proof.
  revert w. induction ws as [| w' ws IH]; intros w H; simpl.
  - rewrite string_app_empty_r. apply Split_no_sep.
    apply Forall_cons in H as [H _]. apply andb_prop in H as [_ H]. exact H.
  - apply Forall_cons in H as [Hw H]. apply andb_prop in Hw as [_ Hw].
    rewrite Split_app_sep by exact Hw. f_equal. apply (IH w' H).
Qed.

Lemma plain_word_TrimRight (w : string) (t : string) :
  plain_word w = true -> strings.TrimRight (w ++ t) <> "".
Proof.
  intros H. apply andb_prop in H as [Hne Hw].
  destruct w as [| c w]; [discriminate |]. simpl in *.
  apply andb_prop in Hw as [Hc _]. apply negb_true_iff in Hc.
  destruct (strings.TrimRight (w ++ t)); [rewrite Hc |]; discriminate.
Qed.

Lemma TrimRight_join (w : string) (ws : list string) :
  Forall (fun x => plain_word x = true) (w :: ws) ->
  strings.TrimRight (join_words (w :: ws)) = join_words (w :: ws).
Proof.
  revert w. induction ws as [| w' ws IH]; intros w H; simpl.
  - rewrite string_app_empty_r. apply TrimRight_no_space.
    apply Forall_cons in H as [H _]. apply andb_prop in H as [_ H]. exact H.
  - apply Forall_cons in H as [Hw H].
    change (String " " (w' ++ sep_words ws)) with (" " ++ join_words (w' :: ws)).
    rewrite <- string_app_assoc, TrimRight_app.
    + rewrite (IH w' H). reflexivity.
    + apply Forall_cons in H as [Hw' _]. simpl.
      apply plain_word_TrimRight, Hw'.
Qed.

Lemma TrimSpace_join (w : string) (ws : list string) :
  Forall (fun x => plain_word x = true) (w :: ws) ->
  strings.TrimSpace (join_words (w :: ws)) = join_words (w :: ws).
Proof.
  intros H. unfold strings.TrimSpace.
  assert (strings.TrimLeft (join_words (w :: ws)) = join_words (w :: ws)) as ->.
  { apply Forall_cons in H as [Hw _]. apply andb_prop in Hw as [Hne Hw].
    destruct w as [| c w]; [discriminate |]. simpl in *.
    apply andb_prop in Hw as [Hc _]. apply negb_true_iff in Hc. rewrite Hc. reflexivity. }
  apply TrimRight_join, H.
Qed.

(** ** The entries of the word list *)

Lemma entry_ok_spec (i : Z) (w : string) :
  entry_ok i w = true ->
  plain_word w = true /\ wordIndexes !! strings.ToLower w = Some i.
Proof.
  unfold entry_ok. intros H. apply andb_prop in H as [Hp H].
  apply bool_decide_eq_true in H. split; assumption.
Qed.

Lemma wordList_entries_ok : entries_ok 0 wordList = true.
Proof. vm_compute. reflexivity. Qed.

Lemma entries_ok_lookup (ws : list string) (i : Z) (n : nat) (w : string) :
  entries_ok i ws = true -> ws !! n = Some w -> entry_ok (i + Z.of_nat n) w = true.
Proof.
  revert i n. induction ws as [| w' ws IH]; intros i n H Hn; [discriminate |].
  simpl in H. apply andb_prop in H as [Hw H].
  destruct n as [| n]; simpl in Hn.
  - injection Hn as <-. rewrite Z.add_0_r. exact Hw.
  - replace (i + Z.of_nat (S n)) with (i + 1 + Z.of_nat n) by lia.
    apply IH; assumption.
Qed.

Lemma word_at_lookup (b : byte) (i : Z) :
  wordList !! Z.to_nat (word_index b i) = Some (word_at b i).
Proof.
  destruct (wordList_lookup_byte b i) as [w Hw].
  unfold word_at. rewrite Hw. reflexivity.
Qed.

Lemma word_at_entry_ok (b : byte) (i : Z) : entry_ok (word_index b i) (word_at b i) = true.
Proof.
  pose proof (word_index_range b i) as Hr.
  pose proof (entries_ok_lookup wordList 0 (Z.to_nat (word_index b i)) (word_at b i)
                wordList_entries_ok (word_at_lookup b i)) as H.
  rewrite Z2Nat.id, Z.add_0_l in H by lia. exact H.
Qed.

Lemma word_at_plain (b : byte) (i : Z) : plain_word (word_at b i) = true.
Proof. exact (proj1 (entry_ok_spec _ _ (word_at_entry_ok b i))). Qed.

Lemma word_at_wordIndexes (b : byte) (i : Z) :
  wordIndexes !! strings.ToLower (word_at b i) = Some (word_index b i).
Proof. exact (proj2 (entry_ok_spec _ _ (word_at_entry_ok b i))). Qed.

Lemma ByteToMnemonic_word_at (b : byte) (i : Z) : ByteToMnemonic b i = Returns (word_at b i).
Proof.
  rewrite ByteToMnemonic_index. pose proof (word_index_range b i).
  apply index_Returns; [lia | apply word_at_lookup].
Qed.

(* From here on the tables are used through the lemmas above. *)
#[local] Opaque word_at wordList wordIndexes ByteToMnemonic checksumByte.

Lemma words_from_plain (i : Z) (bs : list byte) :
  Forall (fun x => plain_word x = true) (words_from i bs).
Proof.
  revert i. induction bs as [| b bs IH]; intros i; simpl; constructor.
  - apply word_at_plain.
  - apply IH.
Qed.

Lemma words_from_length (i : Z) (bs : list byte) : length (words_from i bs) = length bs.
Proof. revert i. induction bs as [| b bs IH]; intros i; simpl; [| rewrite IH]; reflexivity. Qed.

Lemma words_from_app (i : Z) (bs1 bs2 : list byte) :
  words_from i (bs1 ++ bs2)%list
  = (words_from i bs1 ++ words_from (i + len bs1) bs2)%list.
Proof.
  revert i. induction bs1 as [| b bs1 IH]; intros i; simpl.
  - unfold len. simpl. rewrite Z.add_0_r. reflexivity.
  - rewrite IH. do 3 f_equal. unfold len. simpl length. lia.
Qed.

Lemma words_from_lookup (i : Z) (bs : list byte) (n : nat) :
  words_from i bs !! n = (fun b => word_at b (i + Z.of_nat n)) <$> (bs !! n).
Proof.
  revert i n. induction bs as [| b bs IH]; intros i n; [reflexivity |].
  destruct n as [| n]; simpl.
  - rewrite Z.add_0_r. reflexivity.
  - rewrite IH. replace (i + 1 + Z.of_nat n) with (i + Z.of_nat (S n)) by lia. reflexivity.
Qed.

(** ** Encoding *)

Lemma EncodeMnemonic_loop_from (i : Z) (seed : list byte) (buf : string) :
  i <> 0 ->
  (forall k, 0 <= k -> i + k <> 0) ->
  EncodeMnemonic_loop i seed buf = Returns (buf ++ sep_words (words_from i seed)).
Proof.
  revert i buf. induction seed as [| b seed IH]; intros i buf Hi Hk; simpl.
  - rewrite string_app_empty_r. reflexivity.
  - rewrite ByteToMnemonic_word_at. simpl.
    destruct (Z.eqb_spec i 0) as [E | _]; [contradiction |]. simpl.
    rewrite IH.
    + rewrite !string_app_assoc. reflexivity.
    + apply (Hk 1). lia.
    + intros k Hk'. replace (i + 1 + k) with (i + (1 + k)) by lia. apply Hk. lia.
Qed.

Lemma EncodeMnemonic_loop_0 (b : byte) (seed : list byte) :
  EncodeMnemonic_loop 0 (b :: seed) "" = Returns (join_words (words_from 0 (b :: seed))).
Proof.
  simpl. rewrite ByteToMnemonic_word_at. simpl.
  rewrite EncodeMnemonic_loop_from; [reflexivity | lia | intros; lia].
Qed.

(** For a seed that is not empty the phrase is the words of the seed
    joined by single spaces. *)
Lemma EncodeMnemonic_nonempty (b : byte) (seed : list byte) :
  EncodeMnemonic (b :: seed) = Returns (join_words (mnemonic_words (b :: seed))).
Proof.
  unfold EncodeMnemonic. rewrite EncodeMnemonic_loop_0.
  simpl mbind. unfold mbind, outcome_bind.
  rewrite ByteToMnemonic_word_at. unfold mret, outcome_ret. f_equal.
  unfold mnemonic_words.
  change ((b :: seed) ++ [checksumByte (b :: seed)])%list
    with (b :: (seed ++ [checksumByte (b :: seed)]))%list.
  simpl words_from. simpl join_words.
  rewrite words_from_app, sep_words_app. simpl sep_words.
  rewrite !string_app_assoc, string_app_empty_r. simpl.
  replace (0 + 1 + len seed) with (len (b :: seed))
    by (unfold len; simpl length; lia).
  reflexivity.
Qed.

(** ** Decoding *)

Lemma plain_word_spec (w : string) :
  plain_word w = true -> String.eqb w "" = false /\ strings.TrimSpace w = w.
Proof.
  unfold plain_word. intros H. apply andb_prop in H as [Hne Hw].
  apply negb_true_iff in Hne. split; [exact Hne | apply TrimSpace_no_space, Hw].
Qed.

(** One turn of the loop of [DecodeMnemonics] on a plain word that is in
    the list. *)
Lemma DecodeMnemonics_loop_word (w : string) (rest : list string) (idx : Z)
    (decoded : list byte) (b : Z) :
  plain_word w = true ->
  wordIndexes !! strings.ToLower w = Some b ->
  DecodeMnemonics_loop (w :: rest) idx decoded
  = if negb (Z.rem b 2 =? Z.rem idx 2) then Returns (inr (parity_error w idx))
    else decoded' ← index_set decoded idx (byte_of_Z (Z.quot b 2));
         DecodeMnemonics_loop rest (idx + 1) decoded'.
Proof.
  intros Hp Hb. destruct (plain_word_spec w Hp) as [Hne Ht].
  cbn [DecodeMnemonics_loop]. rewrite Ht, Hne, Hb. reflexivity.
Qed.

Lemma word_index_rem (b : byte) (i : Z) :
  0 <= i -> Z.rem (word_index b i) 2 = Z.rem i 2.
Proof.
  intros Hi. pose proof (word_index_range b i) as Hr.
  rewrite !Z.rem_mod_nonneg by lia. unfold word_index.
  rewrite Z.add_comm, Z.mul_comm, Z.mod_add by lia. apply Z.mod_mod. lia.
Qed.

Lemma word_index_quot (b : byte) (i : Z) : Z.quot (word_index b i) 2 = Z_of_byte b.
Proof.
  pose proof (word_index_range b i) as Hr.
  rewrite Z.quot_div_nonneg by lia. unfold word_index.
  pose proof (Z.mod_pos_bound i 2 ltac:(lia)) as Hm.
  symmetry. apply (Z.div_unique _ _ _ (i mod 2)); lia.
Qed.

Lemma index_set_Returns {A} (l : list A) (i : Z) (v : A) :
  0 <= i < len l -> index_set l i v = Returns (<[Z.to_nat i := v]> l).
Proof.
  intros Hi. unfold index_set.
  replace (i <? 0) with false by (symmetry; apply Z.ltb_ge; lia).
  replace (len l <=? i) with false by (symmetry; apply Z.leb_gt; lia).
  reflexivity.
Qed.

Lemma slice_to_Returns {A} (l : list A) (hi : Z) :
  0 <= hi <= len l -> slice_to l hi = Returns (take (Z.to_nat hi) l).
Proof.
  intros Hi. unfold slice_to.
  replace (hi <? 0) with false by (symmetry; apply Z.ltb_ge; lia).
  replace (len l <? hi) with false by (symmetry; apply Z.ltb_ge; lia).
  reflexivity.
Qed.

(** The loop on the words of [bs] writes [bs] into [decoded] from [i]
    on. *)
Lemma DecodeMnemonics_loop_words (bs : list byte) (i : Z) (decoded : list byte) :
  0 <= i -> i + len bs <= len decoded ->
  DecodeMnemonics_loop (words_from i bs) i decoded
  = Returns (inl (i + len bs,
                  (take (Z.to_nat i) decoded ++ bs
                   ++ drop (Z.to_nat (i + len bs)) decoded)%list)).
Proof.
  revert i decoded. induction bs as [| b bs IH]; intros i decoded Hi Hlen.
  - cbn [words_from DecodeMnemonics_loop]. unfold len. simpl length.
    rewrite Z.add_0_r. simpl app. rewrite take_drop. reflexivity.
  - cbn [words_from].
    rewrite (DecodeMnemonics_loop_word _ _ _ _ (word_index b i)
               (word_at_plain b i) (word_at_wordIndexes b i)).
    rewrite word_index_rem by exact Hi. rewrite Z.eqb_refl. cbn [negb].
    assert (len (b :: bs) = 1 + len bs) as Hl by (unfold len; simpl length; lia).
    rewrite Hl in *. pose proof (len_nonneg bs) as Hbs.
    rewrite index_set_Returns by lia.
    rewrite word_index_quot, byte_of_Z_of_byte.
    change (mbind ?f (Returns ?x)) with (f x). cbv beta.
    assert (Z.to_nat i < length decoded)%nat as Hin by (unfold len in Hlen; lia).
    rewrite IH; [| lia | unfold len in *; rewrite length_insert; lia].
    do 3 f_equal; [lia |].
    replace (Z.to_nat (i + 1)) with (S (Z.to_nat i)) by lia.
    rewrite (take_S_r _ _ b) by (apply list_lookup_insert_eq; exact Hin).
    rewrite take_insert_ge by lia.
    rewrite drop_insert_lt by lia.
    rewrite <- app_assoc. simpl app.
    replace (i + 1 + len bs) with (i + (1 + len bs)) by lia. reflexivity.
Qed.

(** Decoding the words of [bs] gives back [bs]. *)
Lemma DecodeMnemonics_words (bs : list byte) :
  DecodeMnemonics (words_from 0 bs) = Returns (bs, None).
Proof.
  unfold DecodeMnemonics. rewrite words_from_length.
  rewrite DecodeMnemonics_loop_words;
    [| lia | unfold len; rewrite length_replicate; lia].
  change (mbind ?f (Returns ?x)) with (f x). cbv beta iota.
  rewrite Z.add_0_l. change (Z.to_nat 0) with 0%nat. rewrite take_0. simpl app.
  assert (Z.to_nat (len bs) = length bs) as Hn by (unfold len; lia).
  rewrite Hn, (drop_ge (replicate _ _)) by (rewrite length_replicate; lia).
  rewrite app_nil_r.
  rewrite slice_to_Returns by (pose proof (len_nonneg bs); lia).
  change (mbind ?f (Returns ?x)) with (f x). cbv beta.
  rewrite Hn, take_ge by lia. reflexivity.
Qed.

(** ** User input *)

Lemma bind_Returns {A B} (x : A) (f : A -> outcome B) : (Returns x ≫= f) = f x.
Proof. reflexivity. Qed.

Lemma len_app {A} (l1 l2 : list A) : len (l1 ++ l2)%list = len l1 + len l2.
Proof. unfold len. rewrite length_app. lia. Qed.

Lemma len_cons {A} (x : A) (l : list A) : len (x :: l) = 1 + len l.
Proof. unfold len. simpl length. lia. Qed.

Lemma mnemonic_words_len (seed : list byte) : len (mnemonic_words seed) = len seed + 1.
Proof.
  unfold mnemonic_words, len. rewrite words_from_length, length_app. simpl length. lia.
Qed.

Lemma mnemonic_words_cons (b : byte) (seed : list byte) :
  mnemonic_words (b :: seed)
  = word_at b 0 :: words_from 1 (seed ++ [checksumByte (b :: seed)])%list.
Proof. reflexivity. Qed.

Lemma mnemonic_words_plain (seed : list byte) :
  Forall (fun x => plain_word x = true) (mnemonic_words seed).
Proof. apply words_from_plain. Qed.

(** On the words of a seed that is not empty the switch takes the
    mnemonic branch, the checksum matches, and the seed comes out. *)
Lemma DecodeUserInput_switch_mnemonic (seed : list byte) :
  seed <> [] ->
  DecodeUserInput_switch (mnemonic_words seed) = Returns (inl seed).
Proof.
  intros Hne. unfold DecodeUserInput_switch.
  assert (1 <= len seed) as Hl.
  { destruct seed; [contradiction |]. rewrite len_cons. pose proof (len_nonneg seed). lia. }
  rewrite mnemonic_words_len.
  replace (len seed + 1 =? 1) with false by (symmetry; apply Z.eqb_neq; lia).
  replace (len seed + 1 >? 1) with true by (symmetry; apply Z.gtb_lt; lia).
  unfold mnemonic_words. rewrite DecodeMnemonics_words, bind_Returns.
  rewrite len_app, (len_cons _ []). change (len []) with 0.
  replace (len seed + (1 + 0) <? 2) with false by (symmetry; apply Z.ltb_ge; lia).
  replace (len seed + (1 + 0) - 1) with (len seed) by lia.
  rewrite slice_to_Returns by (rewrite len_app, len_cons; change (len []) with 0; lia).
  rewrite bind_Returns.
  assert (Z.to_nat (len seed) = length seed) as Hn by (unfold len; lia).
  rewrite Hn, take_app_length.
  rewrite (index_Returns _ _ (checksumByte seed));
    [| lia | rewrite Hn; apply list_lookup_middle; reflexivity ].
  rewrite bind_Returns.
  rewrite (Byte.byte_dec_lb (x := checksumByte seed) eq_refl). reflexivity.
Qed.

Lemma DecodeUserInput_words_mnemonic (seed : list byte) :
  seed <> [] ->
  DecodeUserInput_words (mnemonic_words seed)
  = if seed_len_ok seed then Returns (seed, None)
    else Returns ([], Some seed_len_error).
Proof.
  intros Hne. unfold DecodeUserInput_words.
  rewrite (DecodeUserInput_switch_mnemonic seed Hne), bind_Returns.
  unfold seed_len_ok.
  destruct ((len seed <? hdkeychain.MinSeedBytes) || (len seed >? hdkeychain.MaxSeedBytes));
    reflexivity.
Qed.

(** The input is trimmed and split into the words of the seed again. *)
Lemma Split_TrimSpace_phrase (b : byte) (seed : list byte) :
  strings.Split (strings.TrimSpace (join_words (mnemonic_words (b :: seed)))) " "
  = mnemonic_words (b :: seed).
Proof.
  pose proof (mnemonic_words_plain (b :: seed)) as Hp.
  rewrite mnemonic_words_cons in *.
  rewrite TrimSpace_join by exact Hp. apply Split_join, Hp.
Qed.

(** C1. For every seed [s] whose length is within the bounds of
    [hdkeychain], [EncodeMnemonic s] returns a phrase and
    [DecodeUserInput] of that phrase succeeds and returns exactly [s]:
    the checksum word is verified and stripped. *)
Theorem C1_roundtrip (s : list byte) :
  hdkeychain.MinSeedBytes <= len s <= hdkeychain.MaxSeedBytes ->
  exists phrase,
    EncodeMnemonic s = Returns phrase /\
    DecodeUserInput phrase = Returns (s, None).
Proof.
  intros [Hmin Hmax].
  destruct s as [| b s]; [unfold hdkeychain.MinSeedBytes, len in Hmin; simpl in Hmin; lia |].
  exists (join_words (mnemonic_words (b :: s))). split.
  - apply EncodeMnemonic_nonempty.
  - unfold DecodeUserInput. rewrite Split_TrimSpace_phrase.
    rewrite DecodeUserInput_words_mnemonic by discriminate.
    unfold seed_len_ok.
    replace (len (b :: s) <? hdkeychain.MinSeedBytes) with false
      by (symmetry; apply Z.ltb_ge; lia).
    replace (len (b :: s) >? hdkeychain.MaxSeedBytes) with false
      by (symmetry; rewrite Z.gtb_ltb; apply Z.ltb_ge; lia).
    reflexivity.
Qed.

Lemma C1_roundtrip_witness :
  hdkeychain.MinSeedBytes <= len example_seed <= hdkeychain.MaxSeedBytes /\
  exists phrase,
    EncodeMnemonic example_seed = Returns phrase /\
    DecodeUserInput phrase = Returns (example_seed, None).
Proof.
  assert (hdkeychain.MinSeedBytes <= len example_seed <= hdkeychain.MaxSeedBytes) as H
    by (vm_compute; split; discriminate).
  split; [exact H | apply (C1_roundtrip example_seed H)].
Defined.

(** The words of a seed are the entries of the word list the format
    names: for the byte at position [i] the entry [2*byte + (i mod 2)],
    and last, at position [len seed], the entry for the checksum byte. *)
Lemma mnemonic_words_lookup (seed : list byte) :
  length (mnemonic_words seed) = S (length seed) /\
  (forall (i : nat) (b : byte),
      seed !! i = Some b ->
      mnemonic_words seed !! i
      = wordList !! Z.to_nat (2 * Z_of_byte b + Z.of_nat i mod 2)) /\
  mnemonic_words seed !! length seed
  = wordList !! Z.to_nat (2 * Z_of_byte (checksumByte seed) + len seed mod 2).
Proof.
  unfold mnemonic_words. split; [| split].
  - rewrite words_from_length, length_app. simpl. lia.
  - intros i b Hb. rewrite words_from_lookup, lookup_app_l by (eapply lookup_lt_Some, Hb).
    rewrite Hb. simpl. rewrite <- word_at_lookup. reflexivity.
  - rewrite words_from_lookup, list_lookup_middle by reflexivity.
    simpl. rewrite <- word_at_lookup. reflexivity.
Qed.

(** C4, at the empty seed. For a seed that is not empty [EncodeMnemonic]
    returns the words of the seed joined by single spaces, and it never
    panics; for the empty seed it returns a space followed by the
    checksum word, [" exceed"], which is not the one-word phrase
    ["exceed"] without white space before it. *)
Theorem C4_EncodeMnemonic_empty_seed :
  (forall b seed,
      EncodeMnemonic (b :: seed) = Returns (join_words (mnemonic_words (b :: seed)))) /\
  mnemonic_words [] = ["exceed"] /\
  join_words (mnemonic_words []) = "exceed" /\
  EncodeMnemonic [] = Returns " exceed" /\
  EncodeMnemonic [] <> Returns (join_words (mnemonic_words [])).
Proof.
  split; [exact EncodeMnemonic_nonempty |].
  split; [vm_compute; reflexivity |].
  split; [vm_compute; reflexivity |].
  split; [vm_compute; reflexivity |].
  vm_compute. discriminate.
Qed.

(** A single token is taken as hexadecimal: the mnemonic branch is not
    entered, and the result is that of [hex.DecodeString] followed by the
    bounds on the length. *)
Lemma DecodeUserInput_single_token (input w : string) :
  strings.Split (strings.TrimSpace input) " " = [w] ->
  DecodeUserInput input
  = match hex.DecodeString w with
    | (_, Some e) => Returns ([], Some (errors_E "walletseed.DecodeUserInput" Encoding e))
    | (seed, None) => if seed_len_ok seed then Returns (seed, None)
                      else Returns ([], Some seed_len_error)
    end.
Proof.
  intros H. unfold DecodeUserInput. rewrite H.
  unfold DecodeUserInput_words, DecodeUserInput_switch.
  change (len [w] =? 1) with true. cbv iota.
  change (index [w] 0) with (Returns w). rewrite bind_Returns.
  destruct (hex.DecodeString w) as [seed [e |]]; rewrite bind_Returns; [reflexivity |].
  unfold seed_len_ok.
  destruct ((len seed <? hdkeychain.MinSeedBytes) || (len seed >? hdkeychain.MaxSeedBytes));
    reflexivity.
Qed.

(** C3, as the code has it. The input ["deadbeef"] is one token; it is
    decoded as hexadecimal to the bytes DE AD BE EF, without the mnemonic
    or checksum logic; 4 bytes are fewer than [hdkeychain.MinSeedBytes],
    so the call fails with the invalid-seed-length error. The same token
    written four times, 16 bytes, is returned as its raw bytes. *)
Theorem C3_deadbeef_hex_too_short :
  strings.Split (strings.TrimSpace "deadbeef") " " = ["deadbeef"] /\
  hex.DecodeString "deadbeef" = ([xde; xad; xbe; xef], None) /\
  DecodeUserInput "deadbeef" = Returns ([], Some seed_len_error) /\
  DecodeUserInput "deadbeefdeadbeefdeadbeefdeadbeef"
  = Returns ([xde; xad; xbe; xef; xde; xad; xbe; xef;
              xde; xad; xbe; xef; xde; xad; xbe; xef], None).
Proof. repeat split; vm_compute; reflexivity. Qed.

(** C3 as stated fails: the call does not return the four bytes. *)
Lemma C3_deadbeef_counterexample :
  DecodeUserInput "deadbeef" <> Returns ([xde; xad; xbe; xef], None).
Proof. vm_compute. discriminate. Qed.

(** The scenarios of the format: the same byte gives the entry 0 at an
    even position and the entry 1 at an odd one; a word outside the list
    and a phrase whose checksum word is changed are refused. *)
Example ByteToMnemonic_parity :
  ByteToMnemonic x00 0 = index wordList 0 /\
  ByteToMnemonic x00 1 = index wordList 1 /\
  ByteToMnemonic x00 0 = Returns "aardvark" /\
  ByteToMnemonic x00 1 = Returns "adroitness".
Proof. repeat split; vm_compute; reflexivity. Qed.

Example DecodeUserInput_unknown_word :
  DecodeUserInput "aardvark  Hello"
  = Returns ([], Some (errors_E "walletseed.DecodeUserInput" Encoding
                         (unknown_word_error "Hello"))).
Proof. vm_compute. reflexivity. Qed.

Example DecodeUserInput_checksum_mismatch :
  EncodeMnemonic [x00] = Returns "aardvark belowground" /\
  DecodeUserInput "aardvark adroitness"
  = Returns ([], Some (errors_E "walletseed.DecodeUserInput" Encoding
                         (errors_New "checksum mismatch"))).
Proof. split; vm_compute; reflexivity. Qed.

(** The branch [len(decoded) < 2] of the switch, taken by itself: on
    tokens that are more than one and decode without error to fewer than
    2 bytes, the switch would be left with the seed still empty and the
    final test would return the invalid-seed-length error. The section
    on the short mnemonic shows that the tokens of an input string never
    come here. *)
Lemma DecodeUserInput_switch_short (words : list string) (decoded : list byte) :
  1 < len words ->
  DecodeMnemonics words = Returns (decoded, None) ->
  len decoded < 2 ->
  DecodeUserInput_switch words = Returns (inl []) /\
  DecodeUserInput_words words = Returns ([], Some seed_len_error).
Proof.
  intros Hw Hd Hl.
  assert (DecodeUserInput_switch words = Returns (inl [])) as Hs.
  { unfold DecodeUserInput_switch.
    replace (len words =? 1) with false by (symmetry; apply Z.eqb_neq; lia).
    replace (len words >? 1) with true by (symmetry; apply Z.gtb_lt; lia).
    rewrite Hd, bind_Returns.
    replace (len decoded <? 2) with true by (symmetry; apply Z.ltb_lt; lia).
    reflexivity. }
  split; [exact Hs |].
  unfold DecodeUserInput_words. rewrite Hs, bind_Returns. reflexivity.
Qed.

(** ** Phrases with one word removed or doubled *)

(** A word for an odd position, found first, fails the test of parity. *)
Lemma DecodeMnemonics_odd_first (b : byte) (rest : list string) :
  DecodeMnemonics (word_at b 1 :: rest)
  = Returns ([], Some (parity_error (word_at b 1) 0)).
Proof.
  unfold DecodeMnemonics.
  rewrite (DecodeMnemonics_loop_word _ _ _ _ (word_index b 1)
             (word_at_plain b 1) (word_at_wordIndexes b 1)).
  rewrite word_index_rem by lia. reflexivity.
Qed.

(** A word for an even position, found twice in a row at the start,
    fails the test of parity the second time. *)
Lemma DecodeMnemonics_even_twice (b : byte) (rest : list string) :
  DecodeMnemonics (word_at b 0 :: word_at b 0 :: rest)
  = Returns ([], Some (parity_error (word_at b 0) 1)).
Proof.
  unfold DecodeMnemonics.
  rewrite (DecodeMnemonics_loop_word _ _ _ _ (word_index b 0)
             (word_at_plain b 0) (word_at_wordIndexes b 0)).
  rewrite word_index_rem by lia. rewrite Z.eqb_refl. cbn [negb].
  rewrite index_set_Returns by (unfold len; rewrite length_replicate; simpl length; lia).
  rewrite bind_Returns.
  rewrite (DecodeMnemonics_loop_word _ _ _ _ (word_index b 0)
             (word_at_plain b 0) (word_at_wordIndexes b 0)).
  rewrite word_index_rem by lia. reflexivity.
Qed.

(** The words of a seed that is not empty: the first is for an even
    position, the second for an odd one. *)
Lemma mnemonic_words_two (seed : list byte) :
  seed <> [] ->
  exists b0 b1 rest,
    mnemonic_words seed = word_at b0 0 :: word_at b1 1 :: rest /\
    Forall (fun x => plain_word x = true) rest.
Proof.
  intros Hne. destruct seed as [| b0 seed]; [contradiction |].
  unfold mnemonic_words.
  destruct seed as [| b1 seed].
  - exists b0, (checksumByte [b0]), []. split; [reflexivity | constructor].
  - exists b0, b1, (words_from 2 (seed ++ [checksumByte (b0 :: b1 :: seed)])%list).
    split; [reflexivity | apply words_from_plain].
Qed.

Lemma mnemonic_words_empty_seed :
  strings.Split (strings.TrimSpace " exceed") " " = ["exceed"].
Proof. vm_compute. reflexivity. Qed.

(** C5. Take a seed whose phrase, as [DecodeUserInput] splits it, has at
    least 2 words. One word of the phrase can be removed or doubled so
    that decoding fails with an error of kind [Encoding]: with the first
    word doubled both [DecodeMnemonics] and [DecodeUserInput] fail on the
    test of parity at position 1. In particular, with the first word
    removed [DecodeMnemonics] fails on the test of parity at position 0. *)
Theorem C5_single_word_mutation_detected (seed : list byte) (phrase : string)
    (ws : list string) :
  EncodeMnemonic seed = Returns phrase ->
  ws = strings.Split (strings.TrimSpace phrase) " " ->
  2 <= len ws ->
  (exists ws' w pos,
      single_word_mutation ws ws' /\
      DecodeMnemonics ws' = Returns ([], Some (parity_error w pos)) /\
      DecodeUserInput (join_words ws')
      = Returns ([], Some (errors_E "walletseed.DecodeUserInput" Encoding
                             (parity_error w pos)))) /\
  (exists w1,
      ws !! 1%nat = Some w1 /\
      DecodeMnemonics (remove_word 0 ws) = Returns ([], Some (parity_error w1 0))).
Proof.
  intros Henc Hws Hlen.
  destruct seed as [| b seed].
  { exfalso. assert (phrase = " exceed") as ->.
    { assert (EncodeMnemonic [] = Returns " exceed") as E by (vm_compute; reflexivity).
      rewrite E in Henc. injection Henc as <-. reflexivity. }
    rewrite mnemonic_words_empty_seed in Hws. subst ws. unfold len in Hlen.
    simpl in Hlen. lia. }
  rewrite EncodeMnemonic_nonempty in Henc.
  assert (phrase = join_words (mnemonic_words (b :: seed))) as -> by congruence.
  rewrite Split_TrimSpace_phrase in Hws.
  pose proof (mnemonic_words_plain (b :: seed)) as Hplain.
  destruct (mnemonic_words_two (b :: seed)) as (b0 & b1 & rest & Hw & Hrest);
    [discriminate |].
  rewrite Hw in Hws, Hplain. subst ws. split.
  - exists (word_at b0 0 :: word_at b0 0 :: word_at b1 1 :: rest), (word_at b0 0), 1.
    split; [| split].
    + change (word_at b0 0 :: word_at b0 0 :: word_at b1 1 :: rest)
        with (duplicate_word 0 (word_at b0 0 :: word_at b1 1 :: rest)).
      apply word_duplicated. simpl. lia.
    + apply DecodeMnemonics_even_twice.
    + assert (Forall (fun x => plain_word x = true)
                (word_at b0 0 :: word_at b0 0 :: word_at b1 1 :: rest)) as Hp'
        by (constructor; [apply word_at_plain | exact Hplain]).
      unfold DecodeUserInput.
      rewrite TrimSpace_join by exact Hp'. rewrite Split_join by exact Hp'.
      unfold DecodeUserInput_words, DecodeUserInput_switch.
      rewrite !len_cons.
      pose proof (len_nonneg rest) as Hr.
      replace (1 + (1 + (1 + len rest)) =? 1) with false
        by (symmetry; apply Z.eqb_neq; lia).
      replace (1 + (1 + (1 + len rest)) >? 1) with true
        by (symmetry; apply Z.gtb_lt; lia).
      rewrite DecodeMnemonics_even_twice. reflexivity.
  - exists (word_at b1 1). split; [reflexivity |].
    apply DecodeMnemonics_odd_first.
Qed.

Lemma C5_single_word_mutation_witness :
  exists phrase ws,
    EncodeMnemonic example_seed = Returns phrase /\
    ws = strings.Split (strings.TrimSpace phrase) " " /\
    2 <= len ws /\
    exists w1,
      ws !! 1%nat = Some w1 /\
      DecodeMnemonics (remove_word 0 ws) = Returns ([], Some (parity_error w1 0)).
Proof.
  exists (join_words (mnemonic_words example_seed)),
         (strings.Split (strings.TrimSpace (join_words (mnemonic_words example_seed))) " ").
  assert (EncodeMnemonic example_seed
          = Returns (join_words (mnemonic_words example_seed))) as H1
    by (vm_compute; reflexivity).
  assert (2 <= len (strings.Split
                      (strings.TrimSpace (join_words (mnemonic_words example_seed))) " "))
    as H3 by (vm_compute; discriminate).
  split; [exact H1 |]. split; [reflexivity |]. split; [exact H3 |].
  exact (proj2 (C5_single_word_mutation_detected example_seed _ _ H1 eq_refl H3)).
Defined.

(** ** The transactional batch *)

Section TransactionalBatch_properties.

Context {Store Node : Type}.
Implicit Types (db : storm Store Node) (dbOp : operation Store Node).

(** The calls of a batch and its result, case by case. *)
Lemma batchDbTransaction_cases db dbOp (s0 : Store) :
  batchDbTransaction db dbOp (World s0 [])
  = match Begin db true s0 with
    | ((_, Some e), s1) => (Returns (Some e), World s1 [CallBegin true])
    | ((dbTx, None), s1) =>
        match dbOp dbTx s1 with
        | (Returns None, s2) =>
            (Returns (Commit db dbTx s2).1,
             World (Commit db dbTx s2).2 [CallBegin true; CallOp; CallCommit])
        | (r, s2) =>
            (r, World (Rollback db dbTx s2).2 [CallBegin true; CallOp; CallRollback])
        end
    end.
Proof.
  unfold batchDbTransaction, call_Begin. cbn [store calls].
  destruct (Begin db true s0) as [[dbTx [e |]] s1]; [reflexivity |].
  unfold call_dbOp. cbn [store calls].
  destruct (dbOp dbTx s1) as [[[e |] | v] s2];
    unfold batchDbTransaction_deferred, call_Rollback, call_Commit; cbn;
    destruct (Rollback db dbTx s2); destruct (Commit db dbTx s2); reflexivity.
Qed.

(** C2. Once the transaction is open, the batch commits exactly when
    [dbOp] returns, and returns nil; the result is then what [Commit]
    returns, also when that is an error. When [dbOp] returns an error or
    panics, the transaction has been rolled back when the error or the
    panic leaves the wrapper, nothing is committed, and the error or the
    panic value is the one of [dbOp]. *)
Theorem C2_batch_commit_or_rollback db dbOp (s0 s1 s2 : Store) (dbTx : Node)
    (r : outcome (option error)) :
  Begin db true s0 = ((dbTx, None), s1) ->
  dbOp dbTx s1 = (r, s2) ->
  let result := (batchDbTransaction db dbOp (World s0 [])).1 in
  let w := (batchDbTransaction db dbOp (World s0 [])).2 in
  (CallCommit ∈ calls w <-> r = Returns None) /\
  (CallRollback ∈ calls w <-> r <> Returns None) /\
  (r = Returns None ->
     result = Returns (Commit db dbTx s2).1 /\
     w = World (Commit db dbTx s2).2 [CallBegin true; CallOp; CallCommit]) /\
  (r <> Returns None ->
     result = r /\
     w = World (Rollback db dbTx s2).2 [CallBegin true; CallOp; CallRollback]).
Proof.
  intros HB Hop. cbv zeta. rewrite batchDbTransaction_cases, HB, Hop.
  destruct r as [[e |] | v]; cbn [fst snd calls];
    rewrite !elem_of_cons, !elem_of_nil;
    (split; [| split; [| split]]); intuition (try discriminate; try congruence).
Qed.

End TransactionalBatch_properties.

Lemma C2_batch_witness :
  let db := mem_db None None None in
  let dbOp := mem_write "record" (Panics (panic_arg "boom")) in
  Begin db true mem_empty = ((tt, None), MemStore [] (Some [])) /\
  dbOp tt (MemStore [] (Some [])) = (Panics (panic_arg "boom"), MemStore [] (Some ["record"])) /\
  (batchDbTransaction db dbOp (World mem_empty [])).1 = Panics (panic_arg "boom") /\
  (batchDbTransaction db dbOp (World mem_empty [])).2
  = World (MemStore [] None) [CallBegin true; CallOp; CallRollback].
Proof.
  intros db dbOp.
  assert (Begin db true mem_empty = ((tt, None), MemStore [] (Some []))) as HB
    by reflexivity.
  assert (dbOp tt (MemStore [] (Some []))
          = (Panics (panic_arg "boom"), MemStore [] (Some ["record"]))) as Hop
    by reflexivity.
  split; [exact HB |]. split; [exact Hop |].
  destruct (C2_batch_commit_or_rollback db dbOp _ _ _ _ _ HB Hop) as (_ & _ & _ & H).
  apply H. discriminate.
Defined.

(** C9 as stated fails: the operation returns an error, [Rollback] fails
    too, and the caller receives the error of the operation only. *)
Lemma C9_rollback_failure_dropped :
  (batchDbTransaction (mem_db None None (Some rollback_failed))
     (mem_write "record" (Returns (Some operation_failed))) (World mem_empty [])).1
  = Returns (Some operation_failed) /\
  ~ rollback_failure_returned (mem_db None None (Some rollback_failed))
      (mem_write "record" (Returns (Some operation_failed))) mem_empty.
Proof.
  split; [reflexivity |].
  intros H.
  specialize (H tt (MemStore [] (Some [])) (Returns (Some operation_failed))
                (MemStore [] (Some ["record"])) rollback_failed (MemStore [] None)
                eq_refl eq_refl ltac:(discriminate) eq_refl).
  discriminate H.
Qed.

(** C9, as the code has it. A failure of [Begin] is returned, and
    nothing else is called. A failure of [Commit] is returned. When the
    batch is rolled back the result of [Rollback] is dropped: whatever it
    is, the caller receives the error or the panic of [dbOp]. *)
Theorem C9_begin_commit_failures_returned {Store Node : Type}
    (db : storm Store Node) (dbOp : operation Store Node) (s0 : Store) :
  (forall dbTx e s1,
      Begin db true s0 = ((dbTx, Some e), s1) ->
      batchDbTransaction db dbOp (World s0 [])
      = (Returns (Some e), World s1 [CallBegin true])) /\
  (forall dbTx s1 s2 e s3,
      Begin db true s0 = ((dbTx, None), s1) ->
      dbOp dbTx s1 = (Returns None, s2) ->
      Commit db dbTx s2 = (Some e, s3) ->
      batchDbTransaction db dbOp (World s0 [])
      = (Returns (Some e), World s3 [CallBegin true; CallOp; CallCommit])) /\
  (forall dbTx s1 r s2 rb s3,
      Begin db true s0 = ((dbTx, None), s1) ->
      dbOp dbTx s1 = (r, s2) ->
      r <> Returns None ->
      Rollback db dbTx s2 = (rb, s3) ->
      batchDbTransaction db dbOp (World s0 [])
      = (r, World s3 [CallBegin true; CallOp; CallRollback])).
Proof.
  split; [| split].
  - intros dbTx e s1 HB. rewrite batchDbTransaction_cases, HB. reflexivity.
  - intros dbTx s1 s2 e s3 HB Hop HC.
    rewrite batchDbTransaction_cases, HB, Hop, HC. reflexivity.
  - intros dbTx s1 r s2 rb s3 HB Hop Hr HR.
    rewrite batchDbTransaction_cases, HB, Hop, HR.
    destruct r as [[e |] | v]; [reflexivity | contradiction | reflexivity].
Qed.

Lemma C9_backend_failures_witness :
  batchDbTransaction (mem_db (Some begin_failed) None None)
    (mem_write "record" (Returns None)) (World mem_empty [])
  = (Returns (Some begin_failed), World mem_empty [CallBegin true]) /\
  batchDbTransaction (mem_db None (Some commit_failed) None)
    (mem_write "record" (Returns None)) (World mem_empty [])
  = (Returns (Some commit_failed),
     World (MemStore [] None) [CallBegin true; CallOp; CallCommit]) /\
  batchDbTransaction (mem_db None None (Some rollback_failed))
    (mem_write "record" (Returns (Some operation_failed))) (World mem_empty [])
  = (Returns (Some operation_failed),
     World (MemStore [] None) [CallBegin true; CallOp; CallRollback]).
Proof.
  split; [| split].
  - apply (proj1 (C9_begin_commit_failures_returned _ _ _) tt). reflexivity.
  - apply (proj1 (proj2 (C9_begin_commit_failures_returned _ _ _))
             tt (MemStore [] (Some [])) (MemStore [] (Some ["record"]))); reflexivity.
  - apply (proj2 (proj2 (C9_begin_commit_failures_returned _ _ _))
             tt (MemStore [] (Some [])) _ (MemStore [] (Some ["record"]))
             (Some rollback_failed));
      [reflexivity | reflexivity | discriminate | reflexivity].
Defined.

(** ** The seed vault *)

Section SeedVault_properties.

Context (env : vault_env).

(** What the vault relies on. With the parameters of [naclLoadFromPass]
    scrypt returns a hash and no error, and [nacl.Load] accepts the hash
    written in hexadecimal by [EncodeHex]. *)
Hypothesis scrypt_Key_ok : forall pass,
  (scrypt_Key env pass [] (Z.shiftl 1 15) 8 1 32).2 = None.

Hypothesis nacl_Load_ok : forall pass,
  (nacl_Load env (EncodeHex env (scrypt_Key env pass [] (Z.shiftl 1 15) 8 1 32).1)).2 = None.

(** [secretbox.EasyOpen] opens, under the same key, what
    [secretbox.EasySeal] sealed, whatever the nonce drawn. *)
Hypothesis EasyOpen_EasySeal : forall nonce message key,
  secretbox_EasyOpen env (secretbox_EasySeal env nonce message key) key = (message, None).

(** The errors of scrypt and nacl are values of those packages. *)
Hypothesis scrypt_Key_foreign : forall password salt N r p keyLen e,
  (scrypt_Key env password salt N r p keyLen).2 = Some e ->
  exists pkg msg, e = foreign_error pkg msg.

Hypothesis nacl_Load_foreign : forall hexkey e,
  (nacl_Load env hexkey).2 = Some e -> exists pkg msg, e = foreign_error pkg msg.

Lemma naclLoadFromPass_ok (pass : list byte) :
  exists key, naclLoadFromPass env pass = (key, None).
Proof.
  unfold naclLoadFromPass.
  pose proof (scrypt_Key_ok pass) as Hs. pose proof (nacl_Load_ok pass) as Hl.
  destruct (scrypt_Key env pass [] (Z.shiftl 1 15) 8 1 32) as [hash err].
  cbn [fst snd] in Hs, Hl. subst err.
  destruct (nacl_Load env (EncodeHex env hash)) as [key err].
  cbn [snd] in Hl. subst err. exists key. reflexivity.
Qed.

Lemma naclLoadFromPass_error_foreign (pass key : list byte) (e : error) :
  naclLoadFromPass env pass = (key, Some e) -> exists pkg msg, e = foreign_error pkg msg.
Proof.
  unfold naclLoadFromPass. intros H.
  pose proof (scrypt_Key_foreign pass [] (Z.shiftl 1 15) 8 1 32) as Hs.
  destruct (scrypt_Key env pass [] (Z.shiftl 1 15) 8 1 32) as [hash [e' |]].
  - injection H as _ <-. apply Hs. reflexivity.
  - apply (nacl_Load_foreign (EncodeHex env hash)). rewrite H. reflexivity.
Qed.

(** C6. Under every passphrase, a seed that is sealed and then opened is
    the seed again, and neither step returns an error. *)
Theorem C6_vault_roundtrip (nonce pass : list byte) (seed : string) :
  exists blob,
    encryptWalletSeed env nonce pass seed = (blob, None) /\
    decryptWalletSeed env pass blob = (seed, None).
Proof.
  destruct (naclLoadFromPass_ok pass) as [key Hkey].
  exists (secretbox_EasySeal env nonce (bytes_of_string seed) key).
  unfold encryptWalletSeed, decryptWalletSeed. rewrite Hkey.
  split; [reflexivity |].
  rewrite EasyOpen_EasySeal. unfold string_of_bytes, bytes_of_string.
  rewrite string_of_list_byte_of_string. reflexivity.
Qed.

(** C7. When the key is derived and [secretbox.EasyOpen] fails, for
    whatever reason, [decryptWalletSeed] returns the empty string and the
    error made of [ErrInvalidPassphrase], never another one. When the
    derivation of the key fails, its error is returned as it is, with the
    empty string, and it is not the error of [ErrInvalidPassphrase]. *)
Theorem C7_decrypt_errors (pass encryptedSeed : list byte) :
  (forall key, naclLoadFromPass env pass = (key, None) ->
     (secretbox_EasyOpen env encryptedSeed key).2 <> None ->
     decryptWalletSeed env pass encryptedSeed
     = ("", Some (errors_New (ErrInvalidPassphrase env)))) /\
  (forall key e, naclLoadFromPass env pass = (key, Some e) ->
     decryptWalletSeed env pass encryptedSeed = ("", Some e) /\
     e <> errors_New (ErrInvalidPassphrase env)).
Proof.
  split.
  - intros key Hkey Hopen. unfold decryptWalletSeed. rewrite Hkey.
    destruct (secretbox_EasyOpen env encryptedSeed key) as [decryptedSeed [e |]];
      [reflexivity | contradiction].
  - intros key e Hkey. split.
    + unfold decryptWalletSeed. rewrite Hkey. reflexivity.
    + destruct (naclLoadFromPass_error_foreign pass key e Hkey) as (pkg & msg & ->).
      discriminate.
Qed.

End SeedVault_properties.

Lemma mock_EasyOpen_EasySeal (nonce message key : list byte) :
  mock_EasyOpen (mock_EasySeal nonce message key) key = (message, None).
Proof.
  unfold mock_EasyOpen, mock_EasySeal.
  rewrite (Byte.byte_dec_lb (x := checksumByte (key ++ message)%list) eq_refl).
  reflexivity.
Qed.

Lemma C6_vault_roundtrip_witness :
  (forall pass, (scrypt_Key mock_env pass [] (Z.shiftl 1 15) 8 1 32).2 = None) /\
  (forall nonce message key,
      secretbox_EasyOpen mock_env (secretbox_EasySeal mock_env nonce message key) key
      = (message, None)) /\
  exists blob,
    encryptWalletSeed mock_env [] example_pass "aardvark adroitness" = (blob, None) /\
    decryptWalletSeed mock_env example_pass blob = ("aardvark adroitness", None).
Proof.
  split; [intros pass; reflexivity |].
  split; [exact mock_EasyOpen_EasySeal |].
  apply (C6_vault_roundtrip mock_env).
  - intros pass. reflexivity.
  - intros pass. reflexivity.
  - exact mock_EasyOpen_EasySeal.
Defined.

Lemma C7_decrypt_errors_witness :
  decryptWalletSeed mock_env example_pass [x00; x01]
  = ("", Some (errors_New "invalid_passphrase")) /\
  decryptWalletSeed mock_env_scrypt_fails example_pass [x00; x01]
  = ("", Some scrypt_failed) /\
  scrypt_failed <> errors_New "invalid_passphrase".
Proof.
  split.
  - apply (proj1 (C7_decrypt_errors mock_env
                    ltac:(intros ? ? ? ? ? ? ? H; discriminate H)
                    ltac:(intros ? ? H; discriminate H)
                    example_pass [x00; x01])
             (naclLoadFromPass mock_env example_pass).1).
    + vm_compute. reflexivity.
    + vm_compute. discriminate.
  - apply (proj2 (C7_decrypt_errors mock_env_scrypt_fails
                    ltac:(intros ? ? ? ? ? ? ? H; injection H as <-;
                          exists "scrypt", "parameters are too large"; reflexivity)
                    ltac:(intros ? ? H; discriminate H)
                    example_pass [x00; x01]) []).
    reflexivity.
Defined.

(** ** The short mnemonic cannot come from an input string *)


Lemma TrimLeft_blank (s : string) : strings.TrimLeft s = "" <-> blank s = true.
Proof.
  induction s as [| c s IH]; simpl; [tauto |].
  destruct (strings.isSpace c); simpl; [exact IH |]. split; discriminate.
Qed.

Lemma TrimLeft_head (s : string) :
  strings.TrimLeft s = "" \/
  exists c t, strings.TrimLeft s = String c t /\ strings.isSpace c = false.
Proof.
  induction s as [| c s IH]; simpl; [left; reflexivity |].
  destruct (strings.isSpace c) eqn:E; [exact IH |].
  right. exists c, s. split; [reflexivity | exact E].
Qed.

Lemma TrimRight_head (c : ascii) (t : string) :
  strings.isSpace c = false ->
  exists t', strings.TrimRight (String c t) = String c t'.
Proof.
  intros Hc. simpl. rewrite Hc. destruct (strings.TrimRight t) as [| c' t'].
  - exists "". reflexivity.
  - exists (String c' t'). reflexivity.
Qed.

Lemma TrimSpace_blank (s : string) : strings.TrimSpace s = "" <-> blank s = true.
Proof.
  unfold strings.TrimSpace. rewrite <- TrimLeft_blank.
  destruct (TrimLeft_head s) as [E | (c & t & E & Hc)]; rewrite E.
  - simpl. tauto.
  - destruct (TrimRight_head c t Hc) as [t' E']. rewrite E'. split; discriminate.
Qed.







(** The last element of a slice of 2 elements or more, and the slice
    before it. *)
Lemma last_byte (bs : list byte) :
  2 <= len bs ->
  exists x, bs !! Z.to_nat (len bs - 1) = Some x /\
            bs = (take (Z.to_nat (len bs - 1)) bs ++ [x])%list.
Proof.
  intros H. unfold len in *.
  destruct (lookup_lt_is_Some_2 bs (Z.to_nat (Z.of_nat (length bs) - 1))) as [x Hx];
    [lia |].
  exists x. split; [exact Hx |].
  rewrite <- (take_S_r _ _ _ Hx). rewrite take_ge by lia. reflexivity.
Qed.




(** * Further properties of the code *)

(** ** Strings of ASCII

    The further properties of [DecodeMnemonics] and [DecodeUserInput] are
    stated of strings of ASCII, where the functions of package [strings]
    in this file are those of Go. The tokens that [DecodeUserInput] makes
    of such an input are strings of ASCII too. *)

Lemma TrimLeft_ascii (s : string) :
  is_ascii s = true -> is_ascii (strings.TrimLeft s) = true.
Proof.
  induction s as [| c s IH]; intros H; [reflexivity |].
  simpl. destruct (strings.isSpace c); [| exact H].
  simpl in H. apply andb_prop in H as [_ H]. apply (IH H).
Qed.

Lemma TrimRight_ascii (s : string) :
  is_ascii s = true -> is_ascii (strings.TrimRight s) = true.
Proof.
  induction s as [| c s IH]; intros H; [reflexivity |].
  simpl in H. apply andb_prop in H as [Hc H]. specialize (IH H).
  simpl. destruct (strings.TrimRight s) as [| c' t].
  - destruct (strings.isSpace c); [reflexivity |]. simpl. rewrite Hc. reflexivity.
  - change (is_ascii (String c (String c' t)))
      with ((N_of_ascii c <? 128)%N && is_ascii (String c' t)).
    rewrite Hc, IH. reflexivity.
Qed.

Lemma Split_ascii (s : string) (sep : ascii) :
  is_ascii s = true -> Forall (fun w => is_ascii w = true) (strings.Split s sep).
Proof.
  induction s as [| c s IH]; intros H; [repeat constructor |].
  simpl in H. apply andb_prop in H as [Hc H]. specialize (IH H).
  simpl. destruct (Ascii.eqb c sep).
  - constructor; [reflexivity | exact IH].
  - destruct (strings.Split s sep) as [| w ws].
    + repeat constructor. simpl. rewrite Hc. reflexivity.
    + inversion IH as [| ? ? Hw Hws]; subst. constructor; [| exact Hws].
      simpl. rewrite Hc, Hw. reflexivity.
Qed.

Lemma Split_TrimSpace_ascii (input : string) :
  is_ascii input = true ->
  Forall (fun w => is_ascii w = true) (strings.Split (strings.TrimSpace input) " ").
Proof.
  intros H. apply Split_ascii, TrimRight_ascii, TrimLeft_ascii, H.
Qed.

(** ** [DecodeMnemonics] without its array *)

Lemma count_words_le (ws : list string) : (count_words ws <= length ws)%nat.
Proof. induction ws as [| w ws IH]; simpl; [lia | destruct (blank w); lia]. Qed.

Lemma TrimSpace_eqb_blank (w : string) : String.eqb (strings.TrimSpace w) "" = blank w.
Proof.
  destruct (String.eqb_spec (strings.TrimSpace w) "") as [E | E].
  - symmetry. apply TrimSpace_blank, E.
  - destruct (blank w) eqn:B; [| reflexivity]. apply TrimSpace_blank in B. contradiction.
Qed.

Lemma decode_tokens_length (ws : list string) (idx : Z) (bs : list byte) :
  decode_tokens ws idx = inl bs -> length bs = count_words ws.
Proof.
  revert idx bs. induction ws as [| w ws IH]; intros idx bs H; simpl in *.
  - injection H as <-. reflexivity.
  - rewrite TrimSpace_eqb_blank in H. destruct (blank w); [apply (IH _ _ H) |].
    destruct (wordIndexes !! _) as [b |]; [| discriminate].
    destruct (negb _); [discriminate |].
    destruct (decode_tokens ws (idx + 1)) as [bs' | e] eqn:E; [| discriminate].
    injection H as <-. simpl. rewrite (IH _ _ E). reflexivity.
Qed.

(** The loop of [DecodeMnemonics] never leaves the array: when the array
    has room for the tokens that are not blank, the loop returns, with
    the bytes of [decode_tokens] written from [idx] on, or with its
    error. *)
Lemma DecodeMnemonics_loop_refines (ws : list string) (idx : Z) (decoded : list byte) :
  0 <= idx ->
  idx + Z.of_nat (count_words ws) <= len decoded ->
  DecodeMnemonics_loop ws idx decoded
  = Returns match decode_tokens ws idx with
            | inl bs => inl (idx + len bs,
                             (take (Z.to_nat idx) decoded ++ bs
                              ++ drop (Z.to_nat (idx + len bs)) decoded)%list)
            | inr e => inr e
            end.
Proof.
  revert idx decoded. induction ws as [| w ws IH]; intros idx decoded Hi Hlen.
  - cbn [DecodeMnemonics_loop decode_tokens]. change (len []) with 0.
    rewrite Z.add_0_r. simpl app. rewrite take_drop. reflexivity.
  - cbn [DecodeMnemonics_loop decode_tokens]. simpl count_words in Hlen.
    rewrite TrimSpace_eqb_blank. destruct (blank w); [apply IH; lia |].
    destruct (wordIndexes !! _) as [b |]; [| reflexivity].
    destruct (negb _); [reflexivity |].
    rewrite index_set_Returns by lia. rewrite bind_Returns.
    assert (Z.to_nat idx < length decoded)%nat as Hin by (unfold len in Hlen; lia).
    rewrite IH; [| lia | unfold len in *; rewrite length_insert; lia].
    destruct (decode_tokens ws (idx + 1)) as [bs | e] eqn:E; [| reflexivity].
    rewrite len_cons. do 3 f_equal; [lia |].
    replace (Z.to_nat (idx + 1)) with (S (Z.to_nat idx)) by lia.
    rewrite (take_S_r _ _ (byte_of_Z (Z.quot b 2)))
      by (apply list_lookup_insert_eq; exact Hin).
    rewrite take_insert_ge by lia.
    pose proof (len_nonneg bs) as Hbs.
    rewrite drop_insert_lt by lia.
    rewrite <- app_assoc. simpl app.
    replace (idx + 1 + len bs) with (idx + (1 + len bs)) by lia. reflexivity.
Qed.

(** [DecodeMnemonics] is [decode_tokens] from position 0. *)
Lemma DecodeMnemonics_decode_tokens (ws : list string) :
  DecodeMnemonics ws
  = Returns match decode_tokens ws 0 with
            | inl bs => (bs, None)
            | inr e => ([], Some e)
            end.
Proof.
  unfold DecodeMnemonics.
  rewrite DecodeMnemonics_loop_refines;
    [| lia | unfold len; rewrite length_replicate; pose proof (count_words_le ws); lia].
  rewrite bind_Returns.
  destruct (decode_tokens ws 0) as [bs | e] eqn:E; [| reflexivity].
  pose proof (decode_tokens_length _ _ _ E) as Hl. pose proof (count_words_le ws) as Hc.
  rewrite Z.add_0_l. change (Z.to_nat 0) with 0%nat. rewrite take_0. simpl app.
  assert (Z.to_nat (len bs) = length bs) as Hn by (unfold len; lia).
  rewrite Hn.
  rewrite slice_to_Returns
    by (rewrite len_app; pose proof (len_nonneg bs);
        pose proof (len_nonneg (drop (length bs) (replicate (length ws) x00))); lia).
  rewrite bind_Returns, Hn, take_app_length. reflexivity.
Qed.

(** X1. [DecodeMnemonics] never panics: for every list of tokens it
    returns. With no error, it returns one byte for each token that is
    not blank; with an error, it returns no bytes, and the error is that
    of an unknown word or of a word at a position of the wrong parity.
    The tokens are strings of ASCII, where the model is the code. *)
Theorem X1_DecodeMnemonics_returns (ws : list string) :
  Forall (fun w => is_ascii w = true) ws ->
  exists r,
    DecodeMnemonics ws = Returns r /\
    match r with
    | (bs, None) => length bs = count_words ws
    | (bs, Some e) =>
        bs = [] /\
        ((exists w, e = unknown_word_error w) \/ (exists w idx, e = parity_error w idx))
    end.
Proof.
  intros _. rewrite DecodeMnemonics_decode_tokens.
  destruct (decode_tokens ws 0) as [bs | e] eqn:E.
  - exists (bs, None). split; [reflexivity | apply (decode_tokens_length _ _ _ E)].
  - exists ([], Some e). split; [reflexivity |]. split; [reflexivity |].
    revert E. generalize 0. induction ws as [| w ws IH]; intros idx E; simpl in E.
    + discriminate.
    + destruct (String.eqb _ ""); [apply (IH _ E) |].
      destruct (wordIndexes !! _) as [b |].
      * destruct (negb _).
        -- injection E as <-. right. eauto.
        -- destruct (decode_tokens ws (idx + 1)) eqn:E'; [discriminate |].
           injection E as <-. apply (IH _ E').
      * injection E as <-. left. eauto.
Qed.

Lemma decode_tokens_words_only (ws : list string) (idx : Z) :
  decode_tokens (words_only ws) idx = decode_tokens ws idx.
Proof.
  revert idx. induction ws as [| w ws IH]; intros idx; [reflexivity |].
  unfold words_only. simpl List.filter. fold (words_only ws).
  cbn [decode_tokens]. rewrite TrimSpace_eqb_blank.
  destruct (blank w) eqn:B; cbn [negb]; [apply IH |].
  cbn [decode_tokens]. rewrite TrimSpace_eqb_blank, B.
  destruct (wordIndexes !! _) as [b |]; [| reflexivity].
  destruct (negb _); [reflexivity |]. rewrite IH. reflexivity.
Qed.

(** X4. Blank tokens do not count: on tokens that are strings of ASCII,
    [DecodeMnemonics] gives the same bytes, or the same error, on a list
    of tokens and on the list without its empty and white-space
    tokens. *)
Theorem X4_DecodeMnemonics_skips_blank (ws : list string) :
  Forall (fun w => is_ascii w = true) ws ->
  DecodeMnemonics ws = DecodeMnemonics (words_only ws).
Proof.
  intros _. rewrite !DecodeMnemonics_decode_tokens, decode_tokens_words_only. reflexivity.
Qed.

Lemma X1_X4_tokens_ascii :
  Forall (fun w => is_ascii w = true) ["aardvark"; ""; " "; "Adroitness"; "absurd"].
Proof. repeat constructor. Qed.

Lemma X1_DecodeMnemonics_returns_witness :
  Forall (fun w => is_ascii w = true) ["aardvark"; ""; " "; "Adroitness"; "absurd"] /\
  exists r,
    DecodeMnemonics ["aardvark"; ""; " "; "Adroitness"; "absurd"] = Returns r /\
    match r with
    | (bs, None) => length bs = count_words ["aardvark"; ""; " "; "Adroitness"; "absurd"]
    | (bs, Some e) =>
        bs = [] /\
        ((exists w, e = unknown_word_error w) \/ (exists w idx, e = parity_error w idx))
    end.
Proof.
  split; [exact X1_X4_tokens_ascii |].
  apply (X1_DecodeMnemonics_returns _ X1_X4_tokens_ascii).
Defined.

Lemma X4_skips_blank_witness :
  Forall (fun w => is_ascii w = true) ["aardvark"; ""; " "; "Adroitness"; "absurd"] /\
  DecodeMnemonics ["aardvark"; ""; " "; "Adroitness"; "absurd"]
  = DecodeMnemonics ["aardvark"; "Adroitness"; "absurd"].
Proof.
  split; [exact X1_X4_tokens_ascii |].
  apply (X4_DecodeMnemonics_skips_blank _ X1_X4_tokens_ascii).
Defined.

(** What the switch does on more than one token, by the result of
    [decode_tokens]. *)
Lemma DecodeUserInput_switch_tokens (ws : list string) :
  1 < len ws ->
  DecodeUserInput_switch ws
  = Returns match decode_tokens ws 0 with
            | inr e => inr (errors_E "walletseed.DecodeUserInput" Encoding e)
            | inl bs =>
                if len bs <? 2 then inl []
                else
                  let data := take (Z.to_nat (len bs - 1)) bs in
                  match bs !! Z.to_nat (len bs - 1) with
                  | Some x =>
                      if Byte.eqb (checksumByte data) x then inl data
                      else inr (errors_E "walletseed.DecodeUserInput" Encoding
                                  (errors_New "checksum mismatch"))
                  | None => inl []
                  end
            end.
Proof.
  intros Hl. unfold DecodeUserInput_switch.
  replace (len ws =? 1) with false by (symmetry; apply Z.eqb_neq; lia).
  replace (len ws >? 1) with true by (symmetry; apply Z.gtb_lt; lia).
  rewrite DecodeMnemonics_decode_tokens, bind_Returns.
  destruct (decode_tokens ws 0) as [bs | e]; [| reflexivity].
  destruct (Z.ltb_spec (len bs) 2) as [H | H]; [reflexivity |].
  destruct (last_byte bs H) as (x & Hx & Hbs).
  rewrite slice_to_Returns by lia. rewrite bind_Returns.
  rewrite (index_Returns _ _ x) by (lia || exact Hx). rewrite bind_Returns, Hx.
  cbv zeta. destruct (Byte.eqb _ x); reflexivity.
Qed.

Lemma DecodeUserInput_switch_returns (ws : list string) :
  exists r,
    DecodeUserInput_switch ws = Returns r /\
    match r with
    | inl _ => True
    | inr e => DecodeUserInput_error e
    end.
Proof.
  destruct (Z.lt_ge_cases 1 (len ws)) as [Hl | Hl].
  - rewrite (DecodeUserInput_switch_tokens ws Hl). eexists. split; [reflexivity |].
    destruct (decode_tokens ws 0) as [bs | e]; [| eexists; reflexivity].
    destruct (len bs <? 2); [exact I |].
    destruct (bs !! _) as [x |]; [| exact I]. cbv zeta.
    destruct (Byte.eqb _ x); [exact I | eexists; reflexivity].
  - unfold DecodeUserInput_switch.
    destruct ws as [| w [| w' ws]].
    + exists (inl []). split; [reflexivity | exact I].
    + change (len [w] =? 1) with true. cbv iota.
      change (index [w] 0) with (Returns w). rewrite bind_Returns.
      destruct (hex.DecodeString w) as [seed [e |]];
        eexists; (split; [reflexivity |]); [eexists; reflexivity | exact I].
    + rewrite !len_cons in Hl. pose proof (len_nonneg ws). lia.
Qed.

(** X2. [DecodeUserInput] never panics. When it returns no error, the
    seed has between [MinSeedBytes] and [MaxSeedBytes] bytes; when it
    returns an error, the seed is nil and the error is of kind
    [Encoding], made by [DecodeUserInput]. The input is a string of
    ASCII, where the model is the code. *)
Theorem X2_DecodeUserInput_returns (input : string) :
  is_ascii input = true ->
  exists r,
    DecodeUserInput input = Returns r /\
    match r with
    | (seed, None) => hdkeychain.MinSeedBytes <= len seed <= hdkeychain.MaxSeedBytes
    | (seed, Some e) => seed = [] /\ DecodeUserInput_error e
    end.
Proof.
  intros _. unfold DecodeUserInput, DecodeUserInput_words.
  destruct (DecodeUserInput_switch_returns
              (strings.Split (strings.TrimSpace input) " ")) as ([seed | e] & -> & H);
    rewrite bind_Returns.
  - destruct (Z.ltb_spec (len seed) hdkeychain.MinSeedBytes) as [H1 | H1]; cbn [orb].
    + eexists. split; [reflexivity |]. split; [reflexivity | eexists; reflexivity].
    + destruct (Z.gtb_spec (len seed) hdkeychain.MaxSeedBytes) as [H2 | H2].
      * eexists. split; [reflexivity |]. split; [reflexivity | eexists; reflexivity].
      * eexists. split; [reflexivity |]. cbv beta iota. lia.
  - eexists. split; [reflexivity |]. split; [reflexivity | exact H].
Qed.

Lemma X2_DecodeUserInput_returns_witness :
  is_ascii "aardvark  Hello" = true /\
  exists r,
    DecodeUserInput "aardvark  Hello" = Returns r /\
    match r with
    | (seed, None) => hdkeychain.MinSeedBytes <= len seed <= hdkeychain.MaxSeedBytes
    | (seed, Some e) => seed = [] /\ DecodeUserInput_error e
    end.
Proof.
  assert (is_ascii "aardvark  Hello" = true) as H by reflexivity.
  split; [exact H | apply (X2_DecodeUserInput_returns _ H)].
Defined.

Lemma DecodeUserInput_words_success (ws : list string) (seed : list byte) :
  DecodeUserInput_words ws = Returns (seed, None) ->
  DecodeUserInput_switch ws = Returns (inl seed) /\ seed <> [].
Proof.
  unfold DecodeUserInput_words. intros H.
  destruct (DecodeUserInput_switch_returns ws) as ([seed' | e] & E & _);
    rewrite E, bind_Returns in H; [| discriminate].
  destruct ((len seed' <? hdkeychain.MinSeedBytes) || (len seed' >? hdkeychain.MaxSeedBytes))
    eqn:B; [discriminate |].
  injection H as ->. split; [exact E |].
  intros ->. discriminate B.
Qed.

(** X3. A seed that [DecodeUserInput] returns from more than one token
    had its checksum verified: the tokens decode to the seed followed by
    the checksum byte of the seed. A seed returned from one token is what
    [hex.DecodeString] gives for it. The input is a string of ASCII,
    where the model is the code. *)
Theorem X3_DecodeUserInput_checksum_verified (input : string) (seed : list byte) :
  is_ascii input = true ->
  DecodeUserInput input = Returns (seed, None) ->
  match strings.Split (strings.TrimSpace input) " " with
  | [w] => hex.DecodeString w = (seed, None)
  | ws => DecodeMnemonics ws = Returns ((seed ++ [checksumByte seed])%list, None)
  end.
Proof.
  unfold DecodeUserInput. intros _ H.
  apply DecodeUserInput_words_success in H as [H Hne].
  destruct (strings.Split (strings.TrimSpace input) " ") as [| w [| w' ws]].
  - injection H as <-. contradiction.
  - unfold DecodeUserInput_switch in H. change (len [w] =? 1) with true in H. cbv iota in H.
    change (index [w] 0) with (Returns w) in H. rewrite bind_Returns in H.
    destruct (hex.DecodeString w) as [seed' [e |]]; [discriminate |].
    injection H as ->. reflexivity.
  - rewrite DecodeUserInput_switch_tokens in H
      by (rewrite !len_cons; pose proof (len_nonneg ws); lia).
    rewrite DecodeMnemonics_decode_tokens.
    destruct (decode_tokens (w :: w' :: ws) 0) as [bs | e]; [| discriminate].
    destruct (Z.ltb_spec (len bs) 2) as [Hl | Hl];
      [injection H as <-; contradiction |].
    destruct (last_byte bs Hl) as (x & Hx & Hbs). rewrite Hx in H. cbv zeta in H.
    destruct (Byte.eqb _ x) eqn:B; [| discriminate].
    injection H as H. apply Byte.byte_dec_bl in B.
    rewrite Hbs, H, <- B, H. reflexivity.
Qed.

Lemma X3_checksum_verified_witness :
  exists phrase,
    is_ascii phrase = true /\
    DecodeUserInput phrase = Returns (example_seed, None) /\
    match strings.Split (strings.TrimSpace phrase) " " with
    | [w] => hex.DecodeString w = (example_seed, None)
    | ws => DecodeMnemonics ws
            = Returns ((example_seed ++ [checksumByte example_seed])%list, None)
    end.
Proof.
  exists (join_words (mnemonic_words example_seed)).
  assert (is_ascii (join_words (mnemonic_words example_seed)) = true) as Ha
    by (vm_compute; reflexivity).
  assert (DecodeUserInput (join_words (mnemonic_words example_seed))
          = Returns (example_seed, None)) as H by (vm_compute; reflexivity).
  split; [exact Ha |].
  split; [exact H | apply (X3_DecodeUserInput_checksum_verified _ _ Ha H)].
Defined.

(** ** The index built by [init] *)

(** What [init] puts in the index, for any list of words: a key found in
    the index was there before, or is the trimmed lower-case form of one
    of the words, mapped to the position of that word as a [uint16]. *)
Lemma init_loop_lookup (ws : list string) (i : Z) (m : gmap string Z)
    (k : string) (b : Z) :
  init_loop i ws m !! k = Some b ->
  m !! k = Some b \/
  exists (n : nat) (w : string),
    ws !! n = Some w /\ strings.ToLower (strings.TrimSpace w) = k /\
    b = uint16 (i + Z.of_nat n).
Proof.
  revert i m. induction ws as [| w ws IH]; intros i m H; simpl in H; [left; exact H |].
  apply IH in H as [H | (n & w' & Hn & Hk & Hb)].
  - apply lookup_insert_Some in H as [[Hk Hb] | [_ H]]; [| left; exact H].
    right. exists 0%nat, w. rewrite Z.add_0_r. repeat split; [exact Hk | symmetry; exact Hb].
  - right. exists (S n), w'. repeat split; [exact Hn | exact Hk |].
    rewrite Hb. f_equal. lia.
Qed.

#[local] Transparent wordIndexes.
Lemma wordIndexes_init : wordIndexes = init_loop 0 wordList ∅.
Proof. reflexivity. Qed.
#[local] Opaque wordIndexes.

Lemma wordList_lookup_index (n : nat) (w : string) :
  wordList !! n = Some w ->
  plain_word w = true /\ wordIndexes !! strings.ToLower (strings.TrimSpace w) = Some (Z.of_nat n).
Proof.
  intros H.
  pose proof (entries_ok_lookup wordList 0 n w wordList_entries_ok H) as E.
  rewrite Z.add_0_l in E. apply entry_ok_spec in E as [Hp Hi].
  split; [exact Hp |]. rewrite (proj2 (plain_word_spec w Hp)). exact Hi.
Qed.

Lemma wordIndexes_lookup_inv (k : string) (b : Z) :
  wordIndexes !! k = Some b ->
  exists (n : nat) (w : string),
    wordList !! n = Some w /\ strings.ToLower (strings.TrimSpace w) = k /\ b = Z.of_nat n.
Proof.
  rewrite wordIndexes_init. intros H.
  apply init_loop_lookup in H as [H | (n & w & Hn & Hk & Hb)];
    [rewrite lookup_empty in H; discriminate |].
  exists n, w. repeat split; [exact Hn | exact Hk |].
  pose proof (lookup_lt_Some _ _ _ Hn) as Hlt. rewrite wordList_length in Hlt.
  rewrite Hb. unfold uint16. rewrite Z.mod_small by lia. lia.
Qed.

(** X5. The index is the inverse of the word list: a key is mapped to
    [b] exactly when it is the trimmed lower-case form of the word at
    position [b] of the list. So no two of the 512 words have the same
    key, and none was overwritten by [init]. *)
Theorem X5_wordIndexes_inverse (k : string) (b : Z) :
  wordIndexes !! k = Some b <->
  exists (n : nat) (w : string),
    wordList !! n = Some w /\ strings.ToLower (strings.TrimSpace w) = k /\ b = Z.of_nat n.
Proof.
  split.
  - apply wordIndexes_lookup_inv.
  - intros (n & w & Hn & <- & ->). apply (wordList_lookup_index n w Hn).
Qed.

Lemma Z_of_byte_of_Z (z : Z) : 0 <= z < 256 -> Z_of_byte (byte_of_Z z) = z.
Proof.
  intros H. unfold byte_of_Z, Z_of_byte. rewrite Z.mod_small by lia.
  destruct (Byte.of_N (Z.to_N z)) as [b |] eqn:E.
  - apply Byte.to_of_N in E. rewrite E. lia.
  - apply Byte.of_N_None_iff in E. lia.
Qed.

(** A word found in the index at a position of its parity is the word
    [ByteToMnemonic] gives there for the byte that is decoded. *)
Lemma wordIndexes_word_at (k : string) (b idx : Z) :
  0 <= idx ->
  wordIndexes !! k = Some b ->
  Z.rem b 2 = Z.rem idx 2 ->
  strings.ToLower (word_at (byte_of_Z (Z.quot b 2)) idx) = k.
Proof.
  intros Hi Hk Hp. apply wordIndexes_lookup_inv in Hk as (n & w & Hn & Hw & ->).
  pose proof (lookup_lt_Some _ _ _ Hn) as Hlt. rewrite wordList_length in Hlt.
  rewrite !Z.rem_mod_nonneg in Hp by lia.
  rewrite Z.quot_div_nonneg by lia.
  assert (word_index (byte_of_Z (Z.of_nat n / 2)) idx = Z.of_nat n) as Hx.
  { unfold word_index. rewrite Z_of_byte_of_Z.
    - rewrite <- Hp. symmetry. apply Z.div_mod. lia.
    - split; [apply Z.div_pos; lia | apply Z.div_lt_upper_bound; lia]. }
  pose proof (word_at_lookup (byte_of_Z (Z.of_nat n / 2)) idx) as Hl.
  rewrite Hx, Nat2Z.id, Hn in Hl. injection Hl as <-.
  destruct (wordList_lookup_index n w Hn) as [Hpl _].
  rewrite (proj2 (plain_word_spec w Hpl)) in Hw. exact Hw.
Qed.

(** ** Which tokens decode *)

Lemma decode_tokens_canonical (ws : list string) (idx : Z) (bs : list byte) :
  0 <= idx ->
  decode_tokens ws idx = inl bs ->
  map normalize (words_only ws) = map strings.ToLower (words_from idx bs).
Proof.
  revert idx bs. induction ws as [| w ws IH]; intros idx bs Hi H; simpl in H.
  - injection H as <-. reflexivity.
  - unfold words_only. simpl List.filter. fold (words_only ws).
    rewrite TrimSpace_eqb_blank in H. destruct (blank w); cbn [negb]; [apply (IH _ _ Hi H) |].
    destruct (wordIndexes !! _) as [b |] eqn:Hb; [| discriminate].
    destruct (Z.eqb_spec (Z.rem b 2) (Z.rem idx 2)) as [Hp | Hp]; [| discriminate].
    cbn [negb] in H.
    destruct (decode_tokens ws (idx + 1)) as [bs' | e] eqn:E; [| discriminate].
    injection H as <-. cbn [map words_from]. f_equal.
    + symmetry. apply (wordIndexes_word_at _ _ _ Hi Hb Hp).
    + apply IH; [lia | exact E].
Qed.

Lemma decode_tokens_word (b : byte) (i idx : Z) (rest : list string) :
  0 <= i ->
  decode_tokens (word_at b i :: rest) idx
  = if negb (Z.rem i 2 =? Z.rem idx 2) then inr (parity_error (word_at b i) idx)
    else match decode_tokens rest (idx + 1) with
         | inl bs => inl (b :: bs)
         | inr e => inr e
         end.
Proof.
  intros Hi. cbn [decode_tokens].
  destruct (plain_word_spec _ (word_at_plain b i)) as [Hne Ht].
  rewrite Ht, Hne, word_at_wordIndexes, (word_index_rem b i Hi).
  rewrite word_index_quot, byte_of_Z_of_byte. reflexivity.
Qed.

Lemma decode_tokens_of_canonical (ws : list string) (idx : Z) (bs : list byte) :
  0 <= idx ->
  map normalize (words_only ws) = map strings.ToLower (words_from idx bs) ->
  decode_tokens ws idx = inl bs.
Proof.
  revert idx bs. induction ws as [| w ws IH]; intros idx bs Hi H.
  - destruct bs; [reflexivity | discriminate].
  - unfold words_only in H. simpl List.filter in H. fold (words_only ws) in H.
    cbn [decode_tokens]. rewrite TrimSpace_eqb_blank.
    destruct (blank w); cbn [negb] in H; [apply (IH _ _ Hi H) |].
    destruct bs as [| b bs]; [discriminate |].
    cbn [map words_from] in H. injection H as Hw H.
    unfold normalize in Hw. rewrite Hw, word_at_wordIndexes.
    rewrite (word_index_rem b idx Hi), Z.eqb_refl. cbn [negb].
    rewrite (IH (idx + 1) bs ltac:(lia) H).
    rewrite word_index_quot, byte_of_Z_of_byte. reflexivity.
Qed.

(** X6. What [DecodeMnemonics] accepts among the tokens that are
    strings of ASCII: it returns the bytes [bs] without error exactly
    when the tokens that are not blank, trimmed and in lower case, are
    the words of the list for the bytes of [bs] at the positions 0, 1,
    2, ..., in lower case. Letter case and white space around a word do
    not matter; no other tokens of ASCII are accepted. *)
Theorem X6_DecodeMnemonics_accepts (ws : list string) (bs : list byte) :
  Forall (fun w => is_ascii w = true) ws ->
  (DecodeMnemonics ws = Returns (bs, None) <->
   map normalize (words_only ws) = map strings.ToLower (words_from 0 bs)).
Proof.
  intros _. rewrite DecodeMnemonics_decode_tokens. split.
  - intros H. destruct (decode_tokens ws 0) as [bs' | e] eqn:E; [| discriminate].
    injection H as ->. apply (decode_tokens_canonical ws 0 bs); [lia | exact E].
  - intros H. rewrite (decode_tokens_of_canonical ws 0 bs ltac:(lia) H). reflexivity.
Qed.

Lemma X6_accepts_witness :
  Forall (fun w => is_ascii w = true) ["AARDVARK"; " "; "adroitness "] /\
  (DecodeMnemonics ["AARDVARK"; " "; "adroitness "] = Returns ([x00; x00], None) <->
   map normalize (words_only ["AARDVARK"; " "; "adroitness "])
   = map strings.ToLower (words_from 0 [x00; x00])).
Proof.
  assert (Forall (fun w => is_ascii w = true) ["AARDVARK"; " "; "adroitness "]) as H
    by (repeat constructor).
  split; [exact H | apply (X6_DecodeMnemonics_accepts _ _ H)].
Defined.

Lemma words_only_length (ws : list string) : (length (words_only ws) <= length ws)%nat.
Proof.
  induction ws as [| w ws IH]; [simpl; lia |].
  unfold words_only in *. simpl. destruct (negb (blank w)); simpl; lia.
Qed.

(** X7. [DecodeUserInput] returns the seed for every way of writing its
    phrase: when the seed has an accepted length and the tokens of the
    trimmed input that are not blank are, trimmed and in lower case, the
    words of the seed in lower case, the seed is returned without error,
    whatever the letter case and however many spaces separate the
    words. *)
Theorem X7_DecodeUserInput_any_case (input : string) (seed : list byte) :
  hdkeychain.MinSeedBytes <= len seed <= hdkeychain.MaxSeedBytes ->
  map normalize (words_only (strings.Split (strings.TrimSpace input) " "))
  = map strings.ToLower (mnemonic_words seed) ->
  DecodeUserInput input = Returns (seed, None).
Proof.
  intros [Hmin Hmax] H. unfold DecodeUserInput, DecodeUserInput_words.
  set (ws := strings.Split (strings.TrimSpace input) " ") in *.
  unfold hdkeychain.MinSeedBytes in Hmin.
  assert (1 < len ws) as Hl.
  { pose proof (words_only_length ws) as Hw.
    apply (f_equal length) in H. rewrite !length_map in H.
    pose proof (mnemonic_words_len seed) as Hm. unfold len in *. lia. }
  rewrite (DecodeUserInput_switch_tokens ws Hl).
  unfold mnemonic_words in H.
  rewrite (decode_tokens_of_canonical ws 0 _ ltac:(lia) H).
  rewrite len_app, (len_cons _ []). change (len []) with 0.
  replace (len seed + (1 + 0) <? 2) with false by (symmetry; apply Z.ltb_ge; lia).
  replace (len seed + (1 + 0) - 1) with (len seed) by lia.
  assert (Z.to_nat (len seed) = length seed) as Hn by (unfold len; lia).
  rewrite Hn, take_app_length, list_lookup_middle by reflexivity. cbv zeta.
  rewrite (Byte.byte_dec_lb (x := checksumByte seed) eq_refl), bind_Returns.
  replace (len seed <? hdkeychain.MinSeedBytes) with false
    by (symmetry; apply Z.ltb_ge; unfold hdkeychain.MinSeedBytes; lia).
  replace (len seed >? hdkeychain.MaxSeedBytes) with false
    by (symmetry; rewrite Z.gtb_ltb; apply Z.ltb_ge; lia).
  reflexivity.
Qed.

Lemma X7_any_case_witness :
  hdkeychain.MinSeedBytes <= len example_seed <= hdkeychain.MaxSeedBytes /\
  map normalize (words_only (strings.Split (strings.TrimSpace example_phrase_loose) " "))
  = map strings.ToLower (mnemonic_words example_seed) /\
  DecodeUserInput example_phrase_loose = Returns (example_seed, None).
Proof.
  assert (hdkeychain.MinSeedBytes <= len example_seed <= hdkeychain.MaxSeedBytes) as H1
    by (vm_compute; split; discriminate).
  assert (map normalize
            (words_only (strings.Split (strings.TrimSpace example_phrase_loose) " "))
          = map strings.ToLower (mnemonic_words example_seed)) as H2
    by (vm_compute; reflexivity).
  split; [exact H1 |]. split; [exact H2 |].
  apply (X7_DecodeUserInput_any_case _ _ H1 H2).
Defined.

(** ** Phrases of different seeds *)

(** The tokens of the phrase of any seed, the empty one too, are the
    words of the seed. *)
Lemma EncodeMnemonic_tokens (seed : list byte) :
  exists phrase,
    EncodeMnemonic seed = Returns phrase /\
    strings.Split (strings.TrimSpace phrase) " " = mnemonic_words seed.
Proof.
  destruct seed as [| b seed].
  - exists " exceed". split; vm_compute; reflexivity.
  - exists (join_words (mnemonic_words (b :: seed))).
    split; [apply EncodeMnemonic_nonempty | apply Split_TrimSpace_phrase].
Qed.

Lemma mnemonic_words_inj (s1 s2 : list byte) :
  mnemonic_words s1 = mnemonic_words s2 -> s1 = s2.
Proof.
  unfold mnemonic_words. intros H.
  pose proof (DecodeMnemonics_words (s1 ++ [checksumByte s1])%list) as H1.
  rewrite H, DecodeMnemonics_words in H1. injection H1 as H1.
  apply app_inj_tail in H1 as [H1 _]. symmetry. exact H1.
Qed.

(** X8. Seeds that differ have phrases that differ: [EncodeMnemonic] is
    one-to-one on all byte sequences, the empty one included. *)
Theorem X8_EncodeMnemonic_injective (s1 s2 : list byte) :
  s1 <> s2 -> EncodeMnemonic s1 <> EncodeMnemonic s2.
Proof.
  intros Hne H. apply Hne, mnemonic_words_inj.
  destruct (EncodeMnemonic_tokens s1) as (p1 & E1 & <-).
  destruct (EncodeMnemonic_tokens s2) as (p2 & E2 & <-).
  rewrite E1, E2 in H. injection H as ->. reflexivity.
Qed.

Lemma X8_injective_witness :
  [x00] <> [x01] /\ EncodeMnemonic [x00] <> EncodeMnemonic [x01].
Proof.
  assert ([x00] <> [x01]) as H by discriminate.
  split; [exact H | apply (X8_EncodeMnemonic_injective _ _ H)].
Defined.

(** ** A word dropped, doubled, or exchanged with the next *)

Lemma take_words_from (k : nat) (i : Z) (bs : list byte) :
  take k (words_from i bs) = words_from i (take k bs).
Proof.
  revert i bs. induction k as [| k IH]; intros i bs; [reflexivity |].
  destruct bs as [| b bs]; [reflexivity |]. simpl. rewrite IH. reflexivity.
Qed.

Lemma drop_words_from (k : nat) (i : Z) (bs : list byte) :
  drop k (words_from i bs) = words_from (i + Z.of_nat k) (drop k bs).
Proof.
  revert i bs. induction k as [| k IH]; intros i bs.
  - simpl. rewrite Z.add_0_r. reflexivity.
  - destruct bs as [| b bs]; [reflexivity |]. simpl drop. cbn [words_from]. simpl drop.
    rewrite IH. f_equal. lia.
Qed.

Lemma decode_tokens_words_from_app (bs : list byte) (i : Z) (rest : list string) :
  0 <= i ->
  decode_tokens (words_from i bs ++ rest)%list i
  = match decode_tokens rest (i + len bs) with
    | inl bs' => inl (bs ++ bs')%list
    | inr e => inr e
    end.
Proof.
  revert i. induction bs as [| b bs IH]; intros i Hi.
  - change (len []) with 0. rewrite Z.add_0_r. simpl app.
    destruct (decode_tokens rest i); reflexivity.
  - cbn [words_from]. rewrite <- app_comm_cons, decode_tokens_word by exact Hi.
    rewrite Z.eqb_refl. cbn [negb]. rewrite IH by lia.
    rewrite len_cons. replace (i + 1 + len bs) with (i + (1 + len bs)) by lia.
    destruct (decode_tokens rest _); reflexivity.
Qed.

Lemma rem2_succ (k : Z) : 0 <= k -> (Z.rem (k + 1) 2 =? Z.rem k 2) = false.
Proof.
  intros H. apply Z.eqb_neq. rewrite !Z.rem_mod_nonneg by lia.
  rewrite Z.add_mod by lia. pose proof (Z.mod_pos_bound k 2 ltac:(lia)) as Hb.
  assert (k mod 2 = 0 \/ k mod 2 = 1) as [E | E] by lia; rewrite E; discriminate.
Qed.

(** Tokens that go wrong at position [k]: the words of [pre], then a
    word of the other parity. *)
Lemma DecodeMnemonics_wrong_parity (pre : list byte) (b : byte) (j : Z)
    (rest : list string) :
  0 <= j ->
  (Z.rem j 2 =? Z.rem (len pre) 2) = false ->
  DecodeMnemonics (words_from 0 pre ++ word_at b j :: rest)%list
  = Returns ([], Some (parity_error (word_at b j) (len pre))).
Proof.
  intros Hj Hp. rewrite DecodeMnemonics_decode_tokens.
  rewrite decode_tokens_words_from_app by lia. rewrite Z.add_0_l.
  rewrite decode_tokens_word by exact Hj. rewrite Hp. reflexivity.
Qed.

Lemma len_take {A} (k : nat) (l : list A) : (k <= length l)%nat -> len (take k l) = Z.of_nat k.
Proof. intros H. unfold len. rewrite length_take. lia. Qed.

Lemma DecodeMnemonics_wrong_parity_at (bs : list byte) (k : nat) (b : byte) (j : Z)
    (rest : list string) :
  (k <= length bs)%nat ->
  0 <= j ->
  (Z.rem j 2 =? Z.rem (Z.of_nat k) 2) = false ->
  DecodeMnemonics (words_from 0 (take k bs) ++ word_at b j :: rest)%list
  = Returns ([], Some (parity_error (word_at b j) (Z.of_nat k))).
Proof.
  intros Hk Hj Hp.
  pose proof (DecodeMnemonics_wrong_parity (take k bs) b j rest Hj) as H.
  rewrite len_take in H by exact Hk. apply H, Hp.
Qed.

Lemma mnemonic_words_lookup_byte (seed : list byte) (k : nat) :
  (k <= length seed)%nat ->
  exists b, (seed ++ [checksumByte seed])%list !! k = Some b /\
            mnemonic_words seed !! k = Some (word_at b (Z.of_nat k)).
Proof.
  intros Hk.
  destruct (lookup_lt_is_Some_2 (seed ++ [checksumByte seed])%list k) as [b Hb];
    [rewrite length_app; simpl; lia |].
  exists b. split; [exact Hb |].
  unfold mnemonic_words. rewrite words_from_lookup, Hb. reflexivity.
Qed.

(** X9. A word dropped anywhere before the last is caught by the test of
    parity: for every seed and every position [k] below its length, the
    words of the seed without the word at [k] make [DecodeMnemonics] fail
    at position [k], on the word that followed. *)
Theorem X9_removed_word_detected (seed : list byte) (k : nat) :
  (k < length seed)%nat ->
  exists w,
    mnemonic_words seed !! S k = Some w /\
    DecodeMnemonics (remove_word k (mnemonic_words seed))
    = Returns ([], Some (parity_error w (Z.of_nat k))).
Proof.
  intros Hk.
  destruct (mnemonic_words_lookup_byte seed (S k) ltac:(lia)) as (b & Hb & Hw).
  exists (word_at b (Z.of_nat (S k))). split; [exact Hw |].
  unfold remove_word, mnemonic_words.
  rewrite delete_take_drop, take_words_from, drop_words_from.
  rewrite (drop_S _ _ _ Hb). cbn [words_from].
  pose proof (lookup_lt_Some _ _ _ Hb) as Hlt. rewrite Z.add_0_l.
  apply DecodeMnemonics_wrong_parity_at; [lia | lia |].
  rewrite Nat2Z.inj_succ, <- Z.add_1_r. apply rem2_succ. lia.
Qed.

Lemma X9_removed_word_witness :
  (3 < length example_seed)%nat /\
  exists w,
    mnemonic_words example_seed !! 4%nat = Some w /\
    DecodeMnemonics (remove_word 3 (mnemonic_words example_seed))
    = Returns ([], Some (parity_error w 3)).
Proof.
  assert (3 < length example_seed)%nat as H by (vm_compute; lia).
  split; [exact H | apply (X9_removed_word_detected example_seed 3 H)].
Defined.

(** X10. A word written twice is caught by the test of parity: for every
    seed and every position [k] of its phrase, the checksum word too, the
    words with the word at [k] doubled make [DecodeMnemonics] fail at
    position [k+1], on the second copy. *)
Theorem X10_doubled_word_detected (seed : list byte) (k : nat) :
  (k <= length seed)%nat ->
  exists w,
    mnemonic_words seed !! k = Some w /\
    DecodeMnemonics (duplicate_word k (mnemonic_words seed))
    = Returns ([], Some (parity_error w (Z.of_nat k + 1))).
Proof.
  intros Hk.
  destruct (mnemonic_words_lookup_byte seed k Hk) as (b & Hb & Hw).
  exists (word_at b (Z.of_nat k)). split; [exact Hw |].
  unfold duplicate_word. rewrite Hw.
  rewrite (drop_S _ _ _ Hw).
  change (take k (mnemonic_words seed) ++ word_at b (Z.of_nat k)
            :: word_at b (Z.of_nat k) :: drop (S k) (mnemonic_words seed))%list
    with (take k (mnemonic_words seed)
            ++ [word_at b (Z.of_nat k)]
            ++ word_at b (Z.of_nat k) :: drop (S k) (mnemonic_words seed))%list.
  rewrite app_assoc, <- (take_S_r _ _ _ Hw).
  unfold mnemonic_words. rewrite take_words_from.
  pose proof (lookup_lt_Some _ _ _ Hb) as Hlt.
  rewrite Z.add_1_r, <- Nat2Z.inj_succ.
  apply DecodeMnemonics_wrong_parity_at; [lia | lia |].
  rewrite Nat2Z.inj_succ, <- Z.add_1_r, Z.eqb_sym. apply rem2_succ. lia.
Qed.

Lemma X10_doubled_word_witness :
  (16 <= length example_seed)%nat /\
  exists w,
    mnemonic_words example_seed !! 16%nat = Some w /\
    DecodeMnemonics (duplicate_word 16 (mnemonic_words example_seed))
    = Returns ([], Some (parity_error w 17)).
Proof.
  assert (16 <= length example_seed)%nat as H by (vm_compute; lia).
  split; [exact H | apply (X10_doubled_word_detected example_seed 16 H)].
Defined.

(** X11. Two neighbouring words exchanged are caught by the test of
    parity: for every seed and every position [k] below its length, the
    words with those at [k] and [k+1] exchanged make [DecodeMnemonics]
    fail at position [k], on the word that came from [k+1]. *)
Theorem X11_exchanged_words_detected (seed : list byte) (k : nat) :
  (k < length seed)%nat ->
  exists w',
    mnemonic_words seed !! S k = Some w' /\
    DecodeMnemonics (swap_words k (mnemonic_words seed))
    = Returns ([], Some (parity_error w' (Z.of_nat k))).
Proof.
  intros Hk.
  destruct (mnemonic_words_lookup_byte seed k ltac:(lia)) as (b & Hb & Hw).
  destruct (mnemonic_words_lookup_byte seed (S k) ltac:(lia)) as (b' & Hb' & Hw').
  exists (word_at b' (Z.of_nat (S k))). split; [exact Hw' |].
  unfold swap_words. rewrite Hw, Hw'.
  unfold mnemonic_words. rewrite take_words_from.
  pose proof (lookup_lt_Some _ _ _ Hb) as Hlt.
  apply DecodeMnemonics_wrong_parity_at; [lia | lia |].
  rewrite Nat2Z.inj_succ, <- Z.add_1_r. apply rem2_succ. lia.
Qed.

Lemma X11_exchanged_words_witness :
  (0 < length example_seed)%nat /\
  exists w',
    mnemonic_words example_seed !! 1%nat = Some w' /\
    DecodeMnemonics (swap_words 0 (mnemonic_words example_seed))
    = Returns ([], Some (parity_error w' 0)).
Proof.
  assert (0 < length example_seed)%nat as H by (vm_compute; lia).
  split; [exact H | apply (X11_exchanged_words_detected example_seed 0 H)].
Defined.

(** ** Seeds written in hexadecimal *)

Lemma hex_Decode_byte (b : byte) (rest : string) :
  hex.Decode (String (hex_digit (Z_of_byte b / 16))
                (String (hex_digit (Z_of_byte b mod 16)) rest))
  = let '(bs, err) := hex.Decode rest in (b :: bs, err).
Proof. destruct b; reflexivity. Qed.

Lemma hex_digits_no_space (b : byte) (rest : string) :
  no_space (String (hex_digit (Z_of_byte b / 16))
              (String (hex_digit (Z_of_byte b mod 16)) rest))
  = no_space rest.
Proof. destruct b; reflexivity. Qed.

Lemma hex_EncodeToString_no_space (bs : list byte) : no_space (hex_EncodeToString bs) = true.
Proof.
  induction bs as [| b bs IH]; [reflexivity |].
  cbn [hex_EncodeToString]. rewrite hex_digits_no_space. exact IH.
Qed.

Lemma hex_DecodeString_EncodeToString (bs : list byte) :
  hex.DecodeString (hex_EncodeToString bs) = (bs, None).
Proof.
  unfold hex.DecodeString. induction bs as [| b bs IH]; [reflexivity |].
  cbn [hex_EncodeToString]. rewrite hex_Decode_byte, IH. reflexivity.
Qed.

(** X12. A seed written in hexadecimal comes back: for every seed of an
    accepted length, [DecodeUserInput] of its two lower-case hexadecimal
    digits per byte returns the seed without error. *)
Theorem X12_DecodeUserInput_hex_roundtrip (seed : list byte) :
  hdkeychain.MinSeedBytes <= len seed <= hdkeychain.MaxSeedBytes ->
  DecodeUserInput (hex_EncodeToString seed) = Returns (seed, None).
Proof.
  intros [Hmin Hmax].
  pose proof (hex_EncodeToString_no_space seed) as Hs.
  rewrite (DecodeUserInput_single_token _ (hex_EncodeToString seed)).
  - rewrite hex_DecodeString_EncodeToString. unfold seed_len_ok.
    replace (len seed <? hdkeychain.MinSeedBytes) with false
      by (symmetry; apply Z.ltb_ge; lia).
    replace (len seed >? hdkeychain.MaxSeedBytes) with false
      by (symmetry; rewrite Z.gtb_ltb; apply Z.ltb_ge; lia).
    reflexivity.
  - rewrite (TrimSpace_no_space _ Hs). apply Split_no_sep, Hs.
Qed.

Lemma X12_hex_roundtrip_witness :
  hdkeychain.MinSeedBytes <= len example_seed <= hdkeychain.MaxSeedBytes /\
  DecodeUserInput (hex_EncodeToString example_seed) = Returns (example_seed, None).
Proof.
  assert (hdkeychain.MinSeedBytes <= len example_seed <= hdkeychain.MaxSeedBytes) as H
    by (vm_compute; split; discriminate).
  split; [exact H | apply (X12_DecodeUserInput_hex_roundtrip _ H)].
Defined.

(** ** The transactional batch, from any state *)

(** X13. A batch never leaves a transaction open and never finishes one
    twice. From any state: when [Begin] fails its error is returned and
    nothing else is called; when [Begin] succeeds, the operation is
    called once and then exactly one of [Commit] and [Rollback]. *)
Theorem X13_batch_finalizes_once {Store Node : Type}
    (db : storm Store Node) (dbOp : operation Store Node) (w : world Store) :
  let result := (batchDbTransaction db dbOp w).1 in
  let w' := (batchDbTransaction db dbOp w).2 in
  match (Begin db true (store w)).1.2 with
  | Some e =>
      result = Returns (Some e) /\
      calls w' = (calls w ++ [CallBegin true])%list /\
      store w' = (Begin db true (store w)).2
  | None =>
      calls w' = (calls w ++ [CallBegin true; CallOp; CallCommit])%list \/
      calls w' = (calls w ++ [CallBegin true; CallOp; CallRollback])%list
  end.
Proof.
  cbv zeta. unfold batchDbTransaction, call_Begin.
  destruct (Begin db true (store w)) as [[dbTx [e |]] s1]; cbn [fst snd].
  - cbn [calls store]. repeat split; reflexivity.
  - unfold call_dbOp. cbn [store calls].
    destruct (dbOp dbTx s1) as [[[e |] | v] s2];
      unfold batchDbTransaction_deferred, call_Rollback, call_Commit; cbn [store calls orb];
      try destruct (Rollback db dbTx s2); try destruct (Commit db dbTx s2);
      cbn; rewrite <- !app_assoc; cbn; auto.
Qed.

(** ** A wallet loaded for temporary use *)

(** X14. When the wallet cannot be opened, [loadWalletTemporarily]
    returns the error of [OpenExistingWallet] passed through
    [translateError]; [onLoaded] is not called and nothing is unloaded.
    The wallet is opened without console prompt, with the given public
    passphrase, or with [InsecurePubPassphrase] when that is empty. *)
Theorem X14_load_open_failure {Runtime Wallet : Type} (env : loader_env Runtime Wallet)
    (dir pass : string) (onLoaded : option (callback Runtime Wallet))
    (s0 s1 : Runtime) (wallet : Wallet) (e : error) :
  OpenExistingWallet env dir (open_passphrase env pass) false s0 = ((wallet, Some e), s1) ->
  loadWalletTemporarily env dir pass onLoaded (LoaderWorld s0 [])
  = (Returns (Some (translateError env e)),
     LoaderWorld s1 [CallOpenExistingWallet dir (open_passphrase env pass) false]).
Proof.
  intros H. unfold loadWalletTemporarily, call_OpenExistingWallet, open_passphrase in *.
  cbn [runtime loader_calls]. rewrite H. reflexivity.
Qed.

(** X15. Once the wallet is open it is always unloaded: [UnloadWallet]
    is the last call, made once, after [onLoaded] has returned or
    panicked. The caller receives what [onLoaded] returned, or its panic,
    and nil when there is no callback; an error of [UnloadWallet] is not
    reported. *)
Theorem X15_load_always_unloads {Runtime Wallet : Type} (env : loader_env Runtime Wallet)
    (dir pass : string) (onLoaded : option (callback Runtime Wallet))
    (s0 s1 : Runtime) (wallet : Wallet) :
  OpenExistingWallet env dir (open_passphrase env pass) false s0 = ((wallet, None), s1) ->
  let opened := CallOpenExistingWallet dir (open_passphrase env pass) false in
  loadWalletTemporarily env dir pass onLoaded (LoaderWorld s0 [])
  = match onLoaded with
    | Some f =>
        ((f wallet s1).1,
         LoaderWorld (UnloadWallet env dir (f wallet s1).2).2
           [opened; CallOnLoaded; CallUnloadWallet dir])
    | None =>
        (Returns None,
         LoaderWorld (UnloadWallet env dir s1).2 [opened; CallUnloadWallet dir])
    end.
Proof.
  intros H. cbv zeta.
  unfold loadWalletTemporarily, call_OpenExistingWallet, open_passphrase in *.
  cbn [runtime loader_calls]. rewrite H.
  destruct onLoaded as [f |]; unfold call_onLoaded, call_UnloadWallet; cbn [runtime loader_calls].
  - destruct (f wallet s1) as [r s2]. cbn [fst snd runtime loader_calls].
    destruct (UnloadWallet env dir s2) as [u s3]. reflexivity.
  - destruct (UnloadWallet env dir s1) as [u s3]. reflexivity.
Qed.

Lemma X14_load_open_failure_witness :
  loadWalletTemporarily mock_loader "dir" "secret" (Some mock_onLoaded) (LoaderWorld tt [])
  = (Returns (Some (errors_E "translateError" Other
                      (foreign_error "waddrmgr" "wrong passphrase"))),
     LoaderWorld tt [CallOpenExistingWallet "dir" (bytes_of_string "secret") false]).
Proof.
  apply (X14_load_open_failure mock_loader "dir" "secret" (Some mock_onLoaded) tt tt tt).
  reflexivity.
Defined.

Lemma X15_load_always_unloads_witness :
  loadWalletTemporarily mock_loader "dir" "" (Some mock_onLoaded) (LoaderWorld tt [])
  = (Panics (panic_arg "boom"),
     LoaderWorld tt [CallOpenExistingWallet "dir" (bytes_of_string "public") false;
                     CallOnLoaded; CallUnloadWallet "dir"]).
Proof.
  apply (X15_load_always_unloads mock_loader "dir" "" (Some mock_onLoaded) tt tt tt).
  reflexivity.
Defined.

(** ** The size of the root directory *)

Lemma fnode_induction (P : fnode -> Prop) :
  (forall err, P (Unreadable err)) ->
  (forall size, P (File size)) ->
  (forall size readdir entries, Forall P entries -> P (Dir size readdir entries)) ->
  forall n, P n.
Proof.
  intros HU HF HD. fix IH 1. intros [err | size | size readdir entries].
  - apply HU.
  - apply HF.
  - apply HD. induction entries as [| e es IHes]; constructor; [apply IH | exact IHes].
Qed.

Lemma int64_add_l (a b : Z) : int64 (int64 a + b) = int64 (a + b).
Proof.
  unfold int64. f_equal.
  replace ((a + 2 ^ 63) mod 2 ^ 64 - 2 ^ 63 + b + 2 ^ 63)
    with ((a + 2 ^ 63) mod 2 ^ 64 + b) by lia.
  rewrite Z.add_mod_idemp_l by lia. f_equal. lia.
Qed.

Lemma int64_small (z : Z) : - 2 ^ 63 <= z < 2 ^ 63 -> int64 z = z.
Proof. intros H. unfold int64. rewrite Z.mod_small by lia. lia. Qed.

(** On a tree without failure the walk visits everything, returns no
    error, and has added the sizes of the files to [size]. *)
Lemma walk_error_free (n : fnode) :
  error_free n = true ->
  forall size,
    walk RootDirFileSizeInBytes_walkFn n (int64 size)
    = Returns (None, int64 (size + total_size n)).
Proof.
  induction n as [err | fsize | dsize readdir entries IH] using fnode_induction;
    intros Hf size.
  - discriminate.
  - cbn. rewrite int64_add_l. reflexivity.
  - cbn [error_free] in Hf. destruct readdir as [e |]; [discriminate |].
    cbn [walk RootDirFileSizeInBytes_walkFn IsDir negb]. rewrite bind_Returns.
    cbn [total_size].
    revert size. induction entries as [| e es IHes]; intros size.
    + cbn. rewrite Z.add_0_r. reflexivity.
    + cbn [forallb] in Hf. apply andb_prop in Hf as [He Hes].
      apply Forall_cons in IH as [IHe IH].
      cbn [walk_entries fold_right]. rewrite (IHe He), bind_Returns.
      fold (walk_entries (walk RootDirFileSizeInBytes_walkFn)).
      rewrite (IHes IH Hes). do 3 f_equal. lia.
Qed.

(** X16. When nothing in the tree fails, [RootDirFileSizeInBytes]
    returns no error and the sum of the sizes of all the files, as an
    [int64]; directories add nothing. When the sum fits an [int64] it is
    returned as it is. *)
Theorem X16_RootDirFileSizeInBytes_total (root : fnode) :
  error_free root = true ->
  RootDirFileSizeInBytes root = Returns (int64 (total_size root), None) /\
  (- 2 ^ 63 <= total_size root < 2 ^ 63 ->
   RootDirFileSizeInBytes root = Returns (total_size root, None)).
Proof.
  intros Hf.
  assert (RootDirFileSizeInBytes root = Returns (int64 (total_size root), None)) as H.
  { unfold RootDirFileSizeInBytes, Walk.
    pose proof (walk_error_free root Hf 0) as Hw.
    rewrite (int64_small 0) in Hw by lia. rewrite Hw. reflexivity. }
  split; [exact H |]. intros Hr. rewrite H, (int64_small _ Hr). reflexivity.
Qed.

Lemma X16_total_witness :
  error_free example_tree = true /\
  RootDirFileSizeInBytes example_tree = Returns (123, None).
Proof.
  assert (error_free example_tree = true) as H by reflexivity.
  split; [exact H |].
  apply (proj2 (X16_RootDirFileSizeInBytes_total example_tree H)).
  vm_compute. split; [discriminate | reflexivity].
Defined.

Lemma walk_entries_returns (es : list fnode) :
  Forall (fun n => forall size, exists err size',
            walk RootDirFileSizeInBytes_walkFn n size = Returns (err, size') /\
            (skipdir_free n = true -> walk_outcome_ok (error_free n) err)) es ->
  forall size, exists err size',
    walk_entries (walk RootDirFileSizeInBytes_walkFn) es size = Returns (err, size') /\
    (forallb skipdir_free es = true -> walk_outcome_ok (forallb error_free es) err).
Proof.
  induction es as [| e es IHes]; intros IH size.
  - exists None, size. split; [reflexivity | intros _; reflexivity].
  - apply Forall_cons in IH as [IHe IH].
    destruct (IHe size) as (err & size1 & Hw & Hok).
    destruct (IHes IH size1) as (err' & size2 & Hw' & Hok').
    cbn [walk_entries]. rewrite Hw, bind_Returns.
    fold (walk_entries (walk RootDirFileSizeInBytes_walkFn)).
    cbn [forallb]. destruct err as [x |].
    + destruct (is_file e || negb (is_SkipDir x)) eqn:B.
      * exists (Some x), size1. split; [reflexivity |].
        intros Hs. apply andb_prop in Hs as [Hs _].
        destruct (Hok Hs) as [Hx He]. split; [exact Hx | rewrite He; reflexivity].
      * exists err', size2. split; [exact Hw' |].
        intros Hs. apply andb_prop in Hs as [Hs _].
        destruct (Hok Hs) as [Hx _]. rewrite Hx in B.
        rewrite orb_true_r in B. discriminate.
    + exists err', size2. split; [exact Hw' |].
      intros Hs. apply andb_prop in Hs as [Hs Hs'].
      specialize (Hok Hs). cbn in Hok. rewrite Hok. apply (Hok' Hs').
Qed.

Lemma walk_returns (n : fnode) :
  forall size, exists err size',
    walk RootDirFileSizeInBytes_walkFn n size = Returns (err, size') /\
    (skipdir_free n = true -> walk_outcome_ok (error_free n) err).
Proof.
  induction n as [e | fsize | dsize readdir entries IH] using fnode_induction;
    intros size.
  - exists (Some e), size. split; [reflexivity |].
    cbn. intros H. apply negb_true_iff in H. split; [exact H | reflexivity].
  - eexists None, _. split; [reflexivity | intros _; reflexivity].
  - destruct readdir as [e |];
      cbn [walk RootDirFileSizeInBytes_walkFn IsDir negb skipdir_free error_free].
    + exists (Some e), size. split; [reflexivity |].
      intros H. apply negb_true_iff in H. split; [exact H | reflexivity].
    + rewrite bind_Returns. apply (walk_entries_returns entries IH size).
Qed.

(** X17. [RootDirFileSizeInBytes] never panics: the function it hands to
    [filepath.Walk] reads the info only when there is no error. And, as
    long as no error met in the tree is [filepath.SkipDir], it returns an
    error exactly when some [Lstat] or some reading of a directory
    fails. *)
Theorem X17_RootDirFileSizeInBytes_errors (root : fnode) :
  exists size err,
    RootDirFileSizeInBytes root = Returns (size, err) /\
    (skipdir_free root = true -> (err = None <-> error_free root = true)).
Proof.
  unfold RootDirFileSizeInBytes, Walk.
  destruct (walk_returns root 0) as (err & size & Hw & Hok).
  rewrite Hw, bind_Returns. destruct err as [x |].
  - destruct (is_SkipDir x) eqn:B.
    + exists size, None. split; [reflexivity |].
      intros Hs. destruct (Hok Hs) as [Hx _]. congruence.
    + exists size, (Some x). split; [reflexivity |].
      intros Hs. destruct (Hok Hs) as [_ He]. rewrite He. split; discriminate.
  - exists size, None. split; [reflexivity |].
    intros Hs. specialize (Hok Hs). cbn in Hok. rewrite Hok. split; reflexivity.
Qed.

Lemma X17_errors_witness :
  skipdir_free example_tree_failing = true /\
  RootDirFileSizeInBytes example_tree_failing
  = Returns (100, Some (foreign_error "os" "permission denied")) /\
  exists size err,
    RootDirFileSizeInBytes example_tree_failing = Returns (size, err) /\
    (err = None <-> error_free example_tree_failing = true).
Proof.
  assert (skipdir_free example_tree_failing = true) as H by reflexivity.
  split; [exact H |]. split; [reflexivity |].
  destruct (X17_RootDirFileSizeInBytes_errors example_tree_failing)
    as (size & err & Hr & Hiff).
  exists size, err. split; [exact Hr | exact (Hiff H)].
Defined.

(** ** Seeds of any length *)

(** X18. Encoding and decoding agree at every length: for every seed,
    the empty one and those longer than [MaxSeedBytes] too,
    [EncodeMnemonic] returns a phrase whose tokens, as [DecodeUserInput]
    splits them, are one word for each byte and one for the checksum, and
    [DecodeMnemonics] of these tokens returns the seed followed by its
    checksum byte. *)
Theorem X18_DecodeMnemonics_roundtrip (seed : list byte) :
  exists phrase,
    EncodeMnemonic seed = Returns phrase /\
    length (strings.Split (strings.TrimSpace phrase) " ") = S (length seed) /\
    DecodeMnemonics (strings.Split (strings.TrimSpace phrase) " ")
    = Returns ((seed ++ [checksumByte seed])%list, None).
Proof.
  destruct (EncodeMnemonic_tokens seed) as (phrase & He & Ht).
  exists phrase. rewrite Ht. split; [exact He |]. split.
  - unfold mnemonic_words. rewrite words_from_length, length_app. simpl. lia.
  - apply DecodeMnemonics_words.
Qed.

(** X19. The phrase of a seed that is too short or too long is refused
    for its length only: for a seed that is not empty and has fewer than
    [MinSeedBytes] or more than [MaxSeedBytes] bytes, [DecodeUserInput]
    of its phrase passes the test of the checksum and returns the
    invalid-seed-length error. *)
Theorem X19_DecodeUserInput_bounds (seed : list byte) (phrase : string) :
  seed <> [] ->
  len seed < hdkeychain.MinSeedBytes \/ hdkeychain.MaxSeedBytes < len seed ->
  EncodeMnemonic seed = Returns phrase ->
  DecodeUserInput_switch (strings.Split (strings.TrimSpace phrase) " ") = Returns (inl seed) /\
  DecodeUserInput phrase = Returns ([], Some seed_len_error).
Proof.
  intros Hne Hb He. destruct seed as [| b seed]; [contradiction |].
  rewrite EncodeMnemonic_nonempty in He.
  assert (phrase = join_words (mnemonic_words (b :: seed))) as -> by congruence.
  unfold DecodeUserInput. rewrite Split_TrimSpace_phrase. split.
  - apply DecodeUserInput_switch_mnemonic. discriminate.
  - rewrite DecodeUserInput_words_mnemonic by discriminate. unfold seed_len_ok.
    destruct Hb as [Hb | Hb].
    + replace (len (b :: seed) <? hdkeychain.MinSeedBytes) with true
        by (symmetry; apply Z.ltb_lt; exact Hb).
      reflexivity.
    + replace (len (b :: seed) >? hdkeychain.MaxSeedBytes) with true
        by (symmetry; apply Z.gtb_lt; exact Hb).
      rewrite orb_true_r. reflexivity.
Qed.

Lemma X19_bounds_witness :
  [x00] <> [] /\
  (len [x00] < hdkeychain.MinSeedBytes \/ hdkeychain.MaxSeedBytes < len [x00]) /\
  EncodeMnemonic [x00] = Returns "aardvark belowground" /\
  DecodeUserInput "aardvark belowground" = Returns ([], Some seed_len_error).
Proof.
  assert ([x00] <> []) as H1 by discriminate.
  assert (len [x00] < hdkeychain.MinSeedBytes \/ hdkeychain.MaxSeedBytes < len [x00]) as H2
    by (left; reflexivity).
  assert (EncodeMnemonic [x00] = Returns "aardvark belowground") as H3
    by (vm_compute; reflexivity).
  split; [exact H1 |]. split; [exact H2 |]. split; [exact H3 |].
  apply (proj2 (X19_DecodeUserInput_bounds [x00] _ H1 H2 H3)).
Defined.
